(** * THExtended: sentence ranking and summary evaluation

    A shallow embedding of [utils.py] and [test.py] and the properties
    of the cleaning, scoring, ranking, trigram-blocking and evaluation
    code.

    Conventions of the embedding.
    - Python [str] is [string]; characters are 8-bit codes and the
      character classes ([isalpha], [isdigit], [isspace], [lower]) are the
      ASCII restrictions of Python's Unicode ones.
    - Python [float] is [Q]: rounding, infinities and NaN are outside the
      model.
    - A Python exception is a value of [exn]; code that can raise returns
      [result A]; code that also calls an external collaborator (the
      ROUGE engine, the relevance model, the label scorer) lives in the
      monad [M], which threads the chronological trace of those calls.
    - A score dictionary is a [gmap string (gmap string Q)], so that a
      missing key is a [KeyError] exactly where Python raises one. *)

From Stdlib Require Import QArith Qround Lqa Ascii String.
From stdpp Require Import gmap strings list sets sorting.

#[local] Set Warnings "-clear-no-such-hyp".

Close Scope Q_scope.
Local Open Scope string_scope.
Local Open Scope list_scope.

(** ** Exceptions, results and the call trace *)

Inductive exn : Type :=
| ValueError (msg : string)
| ZeroDivisionError
| StatisticsError
| KeyError (key : string)
| TypeError
| IndexError
| RuntimeError
| ImportError (name : string)
| NameError (name : string)
| AttributeError (name : string).

Inductive result (A : Type) : Type :=
| Ok (a : A)
| Err (e : exn).
Arguments Ok {A} a.
Arguments Err {A} e.

#[global] Instance result_ret : MRet result := fun A a => Ok a.
#[global] Instance result_bind : MBind result := fun A B f r =>
  match r with
  | Ok a => f a
  | Err e => Err e
  end.

(** Calls that leave the repository's own code. *)
Inductive event : Type :=
| RougeCall (candidate reference : string)
| ModelCall (sentences context_list : list string)
| LabelCall (candidate : string) (references : option (list string))
| EncodeCall (texts : list string).

Definition trace : Type := list event.

Definition M (A : Type) : Type := trace -> result A * trace.

#[global] Instance M_ret : MRet M := fun A a tr => (Ok a, tr).
#[global] Instance M_bind : MBind M := fun A B f m tr =>
  match m tr with
  | (Ok a, tr') => f a tr'
  | (Err e, tr') => (Err e, tr')
  end.

Definition lift {A} (r : result A) : M A := fun tr => (r, tr).
Definition emit (e : event) : M unit := fun tr => (Ok tt, tr ++ [e]).
Definition raise {A} (e : exn) : M A := lift (Err e).

(** ** Python strings *)

Definition code (c : ascii) : nat := nat_of_ascii c.

Definition between (lo hi : nat) (c : ascii) : bool :=
  Nat.leb lo (code c) && Nat.leb (code c) hi.

Definition isalpha (c : ascii) : bool := between 65 90 c || between 97 122 c.

Definition isdigit (c : ascii) : bool := between 48 57 c.

(** [str.isspace] on the ASCII range: TAB, LF, VT, FF, CR, FS, GS, RS, US
    and the space. *)
Definition isspace (c : ascii) : bool := between 9 13 c || between 28 32 c.

Definition lower_char (c : ascii) : ascii :=
  if between 65 90 c then ascii_of_nat (code c + 32) else c.

Fixpoint any (p : ascii -> bool) (s : string) : bool :=
  match s with
  | EmptyString => false
  | String c s' => p c || any p s'
  end.

Fixpoint lower (s : string) : string :=
  match s with
  | EmptyString => EmptyString
  | String c s' => String (lower_char c) (lower s')
  end.

Definition len (s : string) : nat := String.length s.

(** The truth value of a string: empty is false. *)
Definition truthy (s : string) : bool :=
  match s with
  | EmptyString => false
  | String _ _ => true
  end.

(** [s.split()]: maximal runs of non-whitespace characters. *)
Fixpoint split (s : string) : list string :=
  match s with
  | EmptyString => []
  | String c s' =>
      if isspace c then split s'
      else match s' with
           | EmptyString => [String c EmptyString]
           | String c' _ =>
               if isspace c' then String c EmptyString :: split s'
               else match split s' with
                    | w :: ws => String c w :: ws
                    | [] => [String c EmptyString]
                    end
           end
  end.

(** [s.split(sep)] for a one-character separator: always at least one
    piece, empty pieces kept. *)
Fixpoint split_char (sep : ascii) (s : string) : list string :=
  match s with
  | EmptyString => [EmptyString]
  | String c s' =>
      if decide (c = sep) then EmptyString :: split_char sep s'
      else match split_char sep s' with
           | w :: ws => String c w :: ws
           | [] => [String c EmptyString]
           end
  end.

Fixpoint startswith (p s : string) : bool :=
  match p, s with
  | EmptyString, _ => true
  | String a p', String b s' => bool_decide (a = b) && startswith p' s'
  | String _ _, EmptyString => false
  end.

Fixpoint drop_chars (n : nat) (s : string) : string :=
  match n, s with
  | O, _ => s
  | S n', String _ s' => drop_chars n' s'
  | S _, EmptyString => EmptyString
  end.

(** [s.split(sep, 1)] when [sep in s]: the text before and after the first
    occurrence of [sep]; [None] when [sep] does not occur. *)
Fixpoint split_once (sep s : string) : option (string * string) :=
  if startswith sep s then Some (EmptyString, drop_chars (len sep) s)
  else match s with
       | EmptyString => None
       | String c s' =>
           match split_once sep s' with
           | Some (before, after) => Some (String c before, after)
           | None => None
           end
       end.

Definition contains (sep s : string) : bool :=
  match split_once sep s with
  | Some _ => true
  | None => false
  end.

Fixpoint join (sep : string) (l : list string) : string :=
  match l with
  | [] => EmptyString
  | [x] => x
  | x :: l' => x +:+ sep +:+ join sep l'
  end.

(** [s.replace(c, "")] for a one-character [c]. *)
Fixpoint remove_char (c : ascii) (s : string) : string :=
  match s with
  | EmptyString => EmptyString
  | String a s' => if decide (a = c) then remove_char c s' else String a (remove_char c s')
  end.

Fixpoint lstrip (s : string) : string :=
  match s with
  | EmptyString => EmptyString
  | String c s' => if isspace c then lstrip s' else s
  end.

Fixpoint rstrip (s : string) : string :=
  match s with
  | EmptyString => EmptyString
  | String c s' =>
      match rstrip s' with
      | EmptyString => if isspace c then EmptyString else String c EmptyString
      | r => String c r
      end
  end.

Definition strip (s : string) : string := rstrip (lstrip s).

Definition newline : ascii := ascii_of_nat 10.
Definition NL : string := String newline EmptyString.

(** ** utils.trigram_blocking *)

Definition trigram : Type := string * string * string.

(** [nltk.ngrams(words, 3)]: the sliding windows of three words. *)
Fixpoint ngrams3 (ws : list string) : list trigram :=
  match ws with
  | a :: ws' =>
      match ws' with
      | b :: c :: _ => (a, b, c) :: ngrams3 ws'
      | _ => []
      end
  | [] => []
  end.

Definition sentence_trigrams (sentence : string) : gset trigram :=
  list_to_set (ngrams3 (split (lower sentence))).

Fixpoint trigram_loop (sentences : list string) (summary : list string)
    (trigrams_summary : gset trigram) : list string :=
  match sentences with
  | [] => summary
  | sentence :: rest =>
      if decide (trigrams_summary ∩ sentence_trigrams sentence = ∅)
      then trigram_loop rest (summary ++ [sentence])
             (trigrams_summary ∪ sentence_trigrams sentence)
      else trigram_loop rest summary trigrams_summary
  end.

Definition trigram_blocking (sentences : list string) : list string :=
  trigram_loop sentences [] ∅.

(** ** utils.clean_dataset *)

(** A record of the raw or cleaned dataset; [highlights] holds the
    highlight sentences joined by newlines. *)
Record data_point : Type := mk_point { article : string; highlights : string }.

Definition before_th : nat := 40.

(** The test of the highlight loop on the text of one highlight sentence. *)
Definition keep_highlight (text : string) : bool :=
  Nat.ltb 3 (length (split_char " " text)) && any isalpha text.

Definition clean_highlight (text : string) : string :=
  strip (remove_char newline text).

Fixpoint highlight_loop (sents : list string) (cleaned_high : string)
    (n_highlight : nat) : string * nat :=
  match sents with
  | [] => (cleaned_high, n_highlight)
  | current_h :: rest =>
      if keep_highlight current_h then
        let cleaned_high1 :=
          if truthy cleaned_high then cleaned_high +:+ NL else cleaned_high in
        highlight_loop rest (cleaned_high1 +:+ clean_highlight current_h)
          (S n_highlight)
      else highlight_loop rest cleaned_high n_highlight
  end.

(** Drop a short lead-in up to and including the first [marker]. *)
Definition strip_prefix (marker article : string) : string :=
  match split_once marker article with
  | Some (text_before, text_after) =>
      if Nat.leb (len text_before) before_th then text_after else article
  | None => article
  end.

Definition clean_words (segment : string) : list string :=
  List.filter (fun word => negb (any isdigit word)) (split segment).

(** The scan over [article.split(".")]: [splits] is the suffix [splits[j:]]. *)
Fixpoint trim_start (splits : list string) (article : string) : string :=
  match splits with
  | [] => article
  | segment :: rest =>
      if Nat.leb (length (clean_words segment)) 2 then trim_start rest article
      else strip (join "." (segment :: rest))
  end.

Section CleanDataset.
(** spaCy's sentence splitter: the texts of [nlp(text).sents]. *)
Variable nlp_sents : string -> list string.
(** [dataset.shuffle(seed=seed)]. *)
Variable shuffle : nat -> list data_point -> list data_point.

(** One iteration of the [while] loop: [None] is [continue]. *)
Definition clean_point (dp : data_point) : option data_point :=
  let '(cleaned_high, n_highlight) :=
    highlight_loop (nlp_sents (highlights dp)) "" 0 in
  if Nat.leb 3 n_highlight && Nat.leb n_highlight 5 then
    let article1 := strip_prefix "--" (article dp) in
    let article2 := strip_prefix "(CNN)" article1 in
    let article3 := trim_start (split_char "." article2) article2 in
    if Nat.ltb (len article3) 300 then None
    else Some (mk_point article3 cleaned_high)
  else None.

(** The [while] loop; [rest] is [ds[i+1:]], and reading past the end of
    the shuffled dataset is an [IndexError]. *)
Fixpoint clean_loop (rest : list data_point) (cleaned_ds : list data_point)
    (num_samples : nat) : result (list data_point) :=
  if Nat.ltb (length cleaned_ds) num_samples then
    match rest with
    | [] => Err IndexError
    | dp :: rest' =>
        match clean_point dp with
        | Some dp' => clean_loop rest' (cleaned_ds ++ [dp']) num_samples
        | None => clean_loop rest' cleaned_ds num_samples
        end
    end
  else Ok cleaned_ds.

Definition clean_dataset (dataset : list data_point) (num_samples seed : nat)
    : result (list data_point) :=
  clean_loop (shuffle seed dataset) [] num_samples.
End CleanDataset.

(** ** Score dictionaries and the aggregation functions *)

Definition prf (f p r : Q) : gmap string Q :=
  {[ "f" := f; "p" := p; "r" := r ]}.

Definition zero_scores : gmap string (gmap string Q) :=
  {[ "rouge-1" := prf 0 0 0; "rouge-2" := prf 0 0 0; "rouge-l" := prf 0 0 0 ]}.

(** [d[key]]. *)
Definition getitem {V} (d : gmap string V) (key : string) : result V :=
  match d !! key with
  | Some v => Ok v
  | None => Err (KeyError key)
  end.

(** [dictionary[key][metric]]. *)
Definition leaf (d : gmap string (gmap string Q)) (key metric : string) : result Q :=
  inner ← getitem d key; getitem inner metric.

Fixpoint aggregate_loop (scores : list (gmap string (gmap string Q)))
    (max_rouge_2_f : Q) (best_dict : gmap string (gmap string Q))
    : result (gmap string (gmap string Q)) :=
  match scores with
  | [] => Ok best_dict
  | dictionary :: rest =>
      match leaf dictionary "rouge-2" "f" with
      | Err e => Err e
      | Ok rouge_2_f =>
          if Qle_bool max_rouge_2_f rouge_2_f
          then aggregate_loop rest rouge_2_f dictionary
          else aggregate_loop rest max_rouge_2_f best_dict
      end
  end.

Definition aggregate_test_scores (scores : list (gmap string (gmap string Q)))
    : result (gmap string (gmap string Q)) :=
  aggregate_loop scores 0%Q ∅.

(** The builtin [max]: the first maximal element. *)
Definition py_max (x : list Q) : result Q :=
  match x with
  | [] => Err (ValueError "max() arg is an empty sequence")
  | a :: l => Ok (fold_left (fun m y => if Qle_bool y m then m else y) l a)
  end.

(** The builtin [sum], started at zero and added left to right. *)
Definition py_sum (x : list Q) : Q := fold_left Qplus x 0%Q.

(** [a / n] for a length [n]. *)
Definition true_div (a : Q) (n : nat) : result Q :=
  match n with
  | O => Err ZeroDivisionError
  | S _ => Ok (a / inject_Z (Z.of_nat n))%Q
  end.

(** The scan of [statistics.harmonic_mean]: a negative value raises, a
    zero ends the scan with [None] (the mean is then 0). *)
Fixpoint reciprocal_sum (x : list Q) (acc : Q) : result (option Q) :=
  match x with
  | [] => Ok (Some acc)
  | v :: rest =>
      if Qle_bool 0 v then
        if Qle_bool v 0 then Ok None else reciprocal_sum rest (acc + / v)%Q
      else Err StatisticsError
  end.

Definition harmonic_mean (x : list Q) : result Q :=
  match x with
  | [] => Err StatisticsError
  | [v] => if Qle_bool 0 v then Ok v else Err StatisticsError
  | _ =>
      match reciprocal_sum x 0%Q with
      | Err e => Err e
      | Ok None => Ok 0%Q
      | Ok (Some total) => Ok (inject_Z (Z.of_nat (length x)) / total)%Q
      end
  end.

Definition select_aggregate (aggregation : string) : result (list Q -> result Q) :=
  if decide (aggregation = "max") then Ok py_max
  else if decide (aggregation = "average")
       then Ok (fun x => true_div (py_sum x) (length x))
  else if decide (aggregation = "harmonic") then Ok harmonic_mean
  else Err (ValueError ("Invalid aggregation parameter: " +:+ aggregation)).

(** ** utils.compute_rouges *)

(** An entry of the list [compute_rouges] returns: a float in train mode,
    a score dictionary in test mode. *)
Inductive value : Type :=
| VFloat (x : Q)
| VDict (d : gmap string (gmap string Q)).

Fixpoint for_each {A B} (f : A -> M B) (l : list A) : M (list B) :=
  match l with
  | [] => mret []
  | a :: l' => b ← f a; bs ← for_each f l'; mret (b :: bs)
  end.

(** The guard of the loop body: [not sentence.strip() or not any(isalpha)]. *)
Definition degenerate (sentence : string) : bool :=
  negb (truthy (strip sentence)) || negb (any isalpha sentence).

Definition zero_value (is_test : bool) : value :=
  if is_test then VDict zero_scores else VFloat 0%Q.

Section ComputeRouges.
(** The ROUGE engine: [rouge_model.get_scores(sentence, reference)[0]],
    which may raise. *)
Variable rouge_get_scores : string -> string -> result (gmap string (gmap string Q)).

Definition rouge_call (sentence reference : string)
    : M (result (gmap string (gmap string Q))) :=
  _ ← emit (RougeCall sentence reference);
  mret (rouge_get_scores sentence reference).

(** The body of [for reference in references] in test mode; the bare
    [except] turns any failure of the engine into the zero dictionary. *)
Definition score_reference_test (sentence reference : string)
    : M (gmap string (gmap string Q)) :=
  r ← rouge_call sentence reference;
  mret (match r with Ok d => d | Err _ => zero_scores end).

(** In train mode the lookups [["rouge-2"]["f"]] are inside the [try]. *)
Definition score_reference_train (sentence reference : string) : M Q :=
  r ← rouge_call sentence reference;
  mret (match r ≫= (fun d => leaf d "rouge-2" "f") with
        | Ok x => x
        | Err _ => 0%Q
        end).

(** The body of [for sentence in sentences]. *)
Definition score_sentence (aggregate_f : list Q -> result Q)
    (references : list string) (is_test : bool) (sentence : string) : M value :=
  if degenerate sentence then mret (zero_value is_test)
  else if is_test then
    tmp_rouges ← for_each (score_reference_test sentence) references;
    aggregated_rouges ← lift (aggregate_test_scores tmp_rouges);
    mret (VDict aggregated_rouges)
  else
    tmp_rouges ← for_each (score_reference_train sentence) references;
    x ← lift (aggregate_f tmp_rouges);
    mret (VFloat x).

Definition compute_rouges (sentences references : list string)
    (aggregation : string) (is_test : bool) : M (list value) :=
  aggregate_f ← lift (select_aggregate aggregation);
  for_each (score_sentence aggregate_f references is_test) sentences.
End ComputeRouges.

(** ** utils.compute_similarities *)

(** The tensor operations the function uses, as an interface.
    [util_st.cos_sim] raises when the two embeddings do not fit each
    other, and [torch.max] over a dimension of size zero raises; [None]
    stands for the latter. *)
Class Torch : Type := {
  Tensor : Type;
  cos_sim : Tensor -> Tensor -> result Tensor;
  torch_max_dim1 : Tensor -> option Tensor;
  torch_mean_dim1 : Tensor -> Tensor;
  torch_reciprocal : Tensor -> Tensor;
  torch_rdiv : Q -> Tensor -> Tensor;
  tolist : Tensor -> list Q
}.

(** [model.encode(texts, convert_to_tensor=True, show_progress_bar=False)]
    of a sentence-embedding model. *)
Definition sentence_encoder `{Torch} : Type := list string -> result Tensor.

(** The call [similarity_model.encode(texts, ...)]. The argument
    [similarity_model] is [None] by default, and [None] has no attribute
    [encode]. *)
Definition call_encode `{Torch} (similarity_model : option sentence_encoder)
    (texts : list string) : M Tensor :=
  match similarity_model with
  | None => raise (AttributeError "encode")
  | Some model => _ ← emit (EncodeCall texts); lift (model texts)
  end.

Definition compute_similarities `{Torch} (sentences references : list string)
    (similarity_model : option sentence_encoder) (aggregation : string)
    : M (list Q) :=
  embeddings1 ← call_encode similarity_model sentences;
  embeddings2 ← call_encode similarity_model references;
  cosine_scores ← lift (cos_sim embeddings1 embeddings2);
  let reduced : result Tensor :=
    if decide (aggregation = "max") then
      match torch_max_dim1 cosine_scores with
      | Some t => Ok t
      | None => Err RuntimeError
      end
    else if decide (aggregation = "average") then Ok (torch_mean_dim1 cosine_scores)
    else if decide (aggregation = "harmonic") then
      Ok (torch_rdiv 1%Q (torch_mean_dim1 (torch_reciprocal cosine_scores)))
    else Err (ValueError ("Invalid aggregation parameter: " +:+ aggregation)) in
  similarities ← lift reduced;
  mret (tolist similarities).

(** A reference instance on matrices of rationals (a list of rows), with
    embeddings taken as already normalised, so that [cos_sim] is the
    matrix product of one side with the transpose of the other. The
    embedding of no text at all is the empty tensor, which [cos_sim]
    takes as one row of width zero; the matrix product raises when the
    widths of the two sides differ. *)
Definition row_max (r : list Q) : option Q :=
  match py_max r with Ok x => Some x | Err _ => None end.

Definition row_mean (r : list Q) : Q := (py_sum r / inject_Z (Z.of_nat (length r)))%Q.

Definition dot (u v : list Q) : Q := py_sum (zip_with Qmult u v).

Definition as_rows (t : list (list Q)) : list (list Q) :=
  match t with
  | [] => [[]]
  | _ => t
  end.

Definition same_width (a b : list (list Q)) : bool :=
  forallb (fun u => forallb (fun v => Nat.eqb (length u) (length v)) b) a.

Definition list_torch : Torch := {|
  Tensor := list (list Q);
  cos_sim := fun a b =>
    if same_width (as_rows a) (as_rows b)
    then Ok (map (fun u => map (dot u) (as_rows b)) (as_rows a))
    else Err RuntimeError;
  torch_max_dim1 := fun t => (fun r => [r]) <$> mapM (M := option) row_max t;
  torch_mean_dim1 := fun t => [map row_mean t];
  torch_reciprocal := map (map Qinv);
  torch_rdiv := fun x => map (map (Qdiv x));
  tolist := fun t => concat t
|}.

(** An encoder for it that embeds every text by [embed]. *)
Definition list_encoder (embed : string -> list Q)
    : sentence_encoder (H := list_torch) :=
  fun texts => Ok (map embed texts).

(** ** utils.get_scores *)

(** What [outputs.logits.squeeze().tolist()] can be: a list of floats, or
    a bare float when the squeezed tensor has no dimension left. *)
Inductive pyvalue : Type :=
| PyFloat (x : Q)
| PyList (l : list Q).

(** The tokenizer and the classifier, as one function of the two lists
    the tokenizer receives. *)
Definition relevance_model : Type := list string -> list string -> pyvalue.

(** [sorted(l, key=key, reverse=True)]: descending and stable. An element
    is placed before the first one whose key is not greater. *)
Fixpoint insert_desc {A} (key : A -> Q) (x : A) (l : list A) : list A :=
  match l with
  | [] => [x]
  | y :: l' =>
      if Qle_bool (key y) (key x) then x :: l else y :: insert_desc key x l'
  end.

Definition sorted_reverse {A} (key : A -> Q) (l : list A) : list A :=
  foldr (insert_desc key) [] l.

(** [[l[i] for i in indices]]. *)
Fixpoint select {A} (l : list A) (indices : list nat) : result (list A) :=
  match indices with
  | [] => Ok []
  | i :: rest =>
      match l !! i with
      | Some x => xs ← select l rest; mret (x :: xs)
      | None => Err IndexError
      end
  end.

Definition get_scores (sentences : list string) (context : string)
    (model : relevance_model) : M (list string * list Q) :=
  let context_list := replicate (length sentences) context in
  _ ← emit (ModelCall sentences context_list);
  match model sentences context_list with
  | PyFloat _ => raise TypeError
  | PyList scores =>
      let sorted_indices :=
        sorted_reverse (fun i => default 0%Q (scores !! i)) (seq 0 (length scores)) in
      sorted_sentences ← lift (select sentences sorted_indices);
      sorted_scores ← lift (select scores sorted_indices);
      mret (sorted_sentences, sorted_scores)
  end.

(** The classifier of [test.py] has one label ([num_labels=1]):
    [outputs.logits] is a tensor of shape (n, 1) for a batch of n
    sentences, kept here as the list of its n entries. [squeeze()] drops
    every dimension of size one: for n = 1 no dimension is left, and
    [tolist()] then answers a bare float. *)
Definition squeeze_tolist (logits : list Q) : pyvalue :=
  match logits with
  | [x] => PyFloat x
  | _ => PyList logits
  end.

(** The tokenizer and the classifier up to [outputs.logits]. *)
Definition classifier : Type := list string -> list string -> list Q.

Definition one_label (classify : classifier) : relevance_model :=
  fun sentences context_list => squeeze_tolist (classify sentences context_list).

(** ** test.compute_avg_dict *)

Definition keys : list string := ["rouge-1"; "rouge-2"; "rouge-l"].
Definition metrics : list string := ["f"; "p"; "r"].

(** [sum(dictionary[key][metric] for dictionary in dict_list)]. *)
Fixpoint sum_leaves (dict_list : list (gmap string (gmap string Q)))
    (key metric : string) (acc : Q) : result Q :=
  match dict_list with
  | [] => Ok acc
  | dictionary :: rest =>
      match leaf dictionary key metric with
      | Ok x => sum_leaves rest key metric (acc + x)%Q
      | Err e => Err e
      end
  end.

Definition avg_leaf (dict_list : list (gmap string (gmap string Q)))
    (key metric : string) : result Q :=
  total ← sum_leaves dict_list key metric 0%Q;
  true_div total (length dict_list).

(** The inner loop: [avg_dict[key][metric] = ...] for each metric. *)
Fixpoint fill_metrics (dict_list : list (gmap string (gmap string Q)))
    (key : string) (ms : list string) (avg_dict : gmap string (gmap string Q))
    : result (gmap string (gmap string Q)) :=
  match ms with
  | [] => Ok avg_dict
  | metric :: rest =>
      match avg_leaf dict_list key metric with
      | Err e => Err e
      | Ok v =>
          match getitem avg_dict key with
          | Err e => Err e
          | Ok inner =>
              fill_metrics dict_list key rest (<[key := <[metric := v]> inner]> avg_dict)
          end
      end
  end.

(** The outer loop: [avg_dict[key] = {}], then the inner loop. *)
Fixpoint fill_keys (dict_list : list (gmap string (gmap string Q)))
    (ks : list string) (avg_dict : gmap string (gmap string Q))
    : result (gmap string (gmap string Q)) :=
  match ks with
  | [] => Ok avg_dict
  | key :: rest =>
      match fill_metrics dict_list key metrics (<[key := ∅]> avg_dict) with
      | Err e => Err e
      | Ok avg_dict1 => fill_keys dict_list rest avg_dict1
      end
  end.

Definition compute_avg_dict (dict_list : list (gmap string (gmap string Q)))
    : result (gmap string (gmap string Q)) :=
  fill_keys dict_list keys ∅.

(** The data model's score dictionary: the nine leaves are present and
    lie in [0,1]. *)
Definition is_score_dict (d : gmap string (gmap string Q)) : bool :=
  forallb (fun key =>
    forallb (fun metric =>
      match leaf d key metric with
      | Ok x => Qle_bool 0 x && Qle_bool x 1
      | Err _ => false
      end) metrics) keys.

Definition ScoreDict (d : gmap string (gmap string Q)) : Prop :=
  is_score_dict d = true.

(** [np.mean] of a list of floats. On the empty list numpy answers NaN;
    the evaluator reaches [np_mean] only after [compute_avg_dict] has
    succeeded on a list of the same length, which is then not empty. *)
Definition np_mean (x : list Q) : Q :=
  (py_sum x / inject_Z (Z.of_nat (length x)))%Q.

(** ** test.evaluate_article and test.evaluate_model *)

(** A row of the flattened test dataset. *)
Record example : Type := mk_example {
  sentence : string;
  context : string;
  example_highlights : string
}.

(** [compute_labels(h, highlights_gt, is_test=True, similarity_model=...)]:
    the function [test.py] imports from [utils]; [highlights_gt] is a list
    or [None]. *)
Definition label_scorer : Type :=
  string -> option (list string) -> result (gmap string (gmap string Q) * Q).

Record loop_state : Type := mk_state {
  current_context : option string;
  current_article_sentences : list string;
  current_highlight : option (list string);
  rouges : list (gmap string (gmap string Q));
  similarities : list Q
}.

Definition initial_state : loop_state := mk_state None [] None [] [].

Section Evaluator.
(** What the global name [compute_labels] is bound to in [test.py];
    [None] when it is unbound, and calling it is then a [NameError]. *)
Variable compute_labels : option label_scorer.
Variable model : relevance_model.
Variable num_highlight : nat.

Definition call_compute_labels (h : string) (highlights_gt : option (list string))
    : M (gmap string (gmap string Q) * Q) :=
  match compute_labels with
  | None => raise (NameError "compute_labels")
  | Some f => _ ← emit (LabelCall h highlights_gt); lift (f h highlights_gt)
  end.

Definition evaluate_article (highlights_pred : list string)
    (highlights_gt : option (list string)) : M (gmap string (gmap string Q) * Q) :=
  scored ← for_each (fun h => call_compute_labels h highlights_gt) highlights_pred;
  avg ← lift (compute_avg_dict (scored.*1));
  mret (avg, np_mean (scored.*2)).

(** Lines 31-34 and 46-49: rank the open group, score its top
    [num_highlight] sentences against [highlights_gt], append. *)
Definition close_group (st : loop_state) (open_context : string)
    (highlights_gt : option (list string)) : M loop_state :=
  ranked ← get_scores (current_article_sentences st) open_context model;
  scored ← evaluate_article (take num_highlight ranked.1) highlights_gt;
  mret (mk_state (current_context st) (current_article_sentences st)
          (current_highlight st) (rouges st ++ [scored.1])
          (similarities st ++ [scored.2])).

(** The body of [for example in dataset]. On a context change the open
    group is closed with [highlights], the highlights of the row just
    read. *)
Definition step (st : loop_state) (ex : example) : M loop_state :=
  let highlights := split_char newline (example_highlights ex) in
  st1 ← (if decide (Some (context ex) ≠ current_context st) then
           st' ← match current_context st with
                 | Some open_context => close_group st open_context (Some highlights)
                 | None => mret st
                 end;
           mret (mk_state (Some (context ex)) [] (Some highlights)
                   (rouges st') (similarities st'))
         else mret st);
  mret (mk_state (current_context st1)
          (current_article_sentences st1 ++ [sentence ex])
          (current_highlight st1) (rouges st1) (similarities st1)).

Fixpoint run_loop (st : loop_state) (dataset : list example) : M loop_state :=
  match dataset with
  | [] => mret st
  | ex :: rest => st' ← step st ex; run_loop st' rest
  end.

(** The processing of the last article (lines 44-49). *)
Definition process_last (st : loop_state) : M loop_state :=
  match current_context st with
  | Some open_context => close_group st open_context (current_highlight st)
  | None => mret st
  end.

(** The rest of the loop from a given state, and the last article. *)
Definition evaluate_from (st : loop_state) (dataset : list example) : M loop_state :=
  st' ← run_loop st dataset;
  process_last st'.

Definition evaluate_groups (dataset : list example) : M loop_state :=
  evaluate_from initial_state dataset.

Definition evaluate_model (dataset : list example)
    : M (gmap string (gmap string Q) * Q) :=
  st ← evaluate_groups dataset;
  avg ← lift (compute_avg_dict (rouges st));
  mret (avg, np_mean (similarities st)).
End Evaluator.

(** ** Module namespaces *)

(** The public names of the standard [math] module, which [utils.py]
    star-imports. *)
Definition math_names : list string :=
  ["acos"; "acosh"; "asin"; "asinh"; "atan"; "atan2"; "atanh"; "cbrt"; "ceil";
   "comb"; "copysign"; "cos"; "cosh"; "degrees"; "dist"; "e"; "erf"; "erfc";
   "exp"; "exp2"; "expm1"; "fabs"; "factorial"; "floor"; "fma"; "fmod"; "frexp";
   "fsum"; "gamma"; "gcd"; "hypot"; "inf"; "isclose"; "isfinite"; "isinf";
   "isnan"; "isqrt"; "lcm"; "ldexp"; "lgamma"; "log"; "log10"; "log1p"; "log2";
   "modf"; "nan"; "nextafter"; "perm"; "pi"; "pow"; "prod"; "radians";
   "remainder"; "sin"; "sinh"; "sqrt"; "sumprod"; "tan"; "tanh"; "tau"; "trunc";
   "ulp"].

(** The names the import statements of [utils.py] bind (lines 1-29). *)
Definition utils_imported_names : list string :=
  ["spacy"; "Dataset"; "pd"] ++ math_names ++
  ["defaultdict"; "sns"; "plt"; "gc"; "time"; "tqdm"; "load"; "os"; "sys";
   "torch"; "random"; "logging"; "traceback"; "np"; "join"; "Rouge"; "difflib";
   "cpu_count"; "statistics"; "load_dataset"; "load_from_disk";
   "loggingDatasets"; "loggingTransformer"; "TrainerCallback"; "util_st";
   "ngrams"].

(** The names its [def] and [class] statements bind. *)
Definition utils_defined_names : list string :=
  ["clean_dataset"; "prepare_dataset"; "compute_rouges"; "compute_similarities";
   "compute_mrr_single_doc"; "is_similar_string"; "aggregate_test_scores";
   "get_scores"; "trigram_blocking"; "Explorer"; "setup_logging"; "LogCallback";
   "make_deterministic"].

Definition utils_namespace : list string :=
  utils_imported_names ++ utils_defined_names.

(** Line 5 of [test.py]. *)
Definition test_imports_from_utils : list string :=
  ["setup_logging"; "make_deterministic"; "prepare_dataset"; "get_scores";
   "compute_labels"].

(** [from module import n1, n2, ...]: the first name the module does not
    define is an [ImportError]. *)
Fixpoint from_import (namespace names : list string) : result unit :=
  match names with
  | [] => Ok tt
  | name :: rest =>
      if bool_decide (name ∈ namespace) then from_import namespace rest
      else Err (ImportError name)
  end.

(** What a name imported from a module is bound to: the module's object of
    that name, if the module has one. *)
Definition imported_binding {A} (namespace : list string) (name : string)
    (object : A) : option A :=
  if bool_decide (name ∈ namespace) then Some object else None.

(** ** Specification-side notions and sample data *)

(** The arithmetic mean of a list of values. *)
Definition arithmetic_mean (values : list Q) : Q :=
  (foldr Qplus 0 values / inject_Z (Z.of_nat (length values)))%Q.

(** The calls of the relevance model recorded in a trace. *)
Definition model_calls (tr : trace) : list (list string * list string) :=
  omap (fun e => match e with
                 | ModelCall sentences context_list => Some (sentences, context_list)
                 | _ => None
                 end) tr.

(** The calls of the label scorer recorded in a trace. *)
Definition label_calls (tr : trace) : list (string * option (list string)) :=
  omap (fun e => match e with
                 | LabelCall h highlights_gt => Some (h, highlights_gt)
                 | _ => None
                 end) tr.

(** The maximal runs of identical contexts of a stream, each with its
    sentences in order: a run put in front of the runs of the rest joins
    the first of them when the contexts agree, and stands alone
    otherwise. *)
Definition open_then (g : string * list string) (runs : list (string * list string))
    : list (string * list string) :=
  match runs with
  | (c, ss) :: rs => if decide (c = g.1) then (g.1, g.2 ++ ss) :: rs else g :: runs
  | [] => [g]
  end.

Fixpoint context_runs (dataset : list example) : list (string * list string) :=
  match dataset with
  | [] => []
  | ex :: rest => open_then (context ex, [sentence ex]) (context_runs rest)
  end.

(** The call of the relevance model that ranks a run. *)
Definition ranking_call (g : string * list string) : list string * list string :=
  (g.2, replicate (length g.2) g.1).

(** Two articles A and B of the flattened test set, with the reference
    highlights hA and hB. *)
Definition two_articles : list example :=
  [mk_example "a1" "A" "hA"; mk_example "a2" "A" "hA";
   mk_example "b1" "B" "hB"; mk_example "b2" "B" "hB"; mk_example "b3" "B" "hB"].

(** A scorer that prefers later sentences, and a label scorer that
    answers zero. *)
Definition later_first : relevance_model :=
  fun sentences _ => PyList (imap (fun i _ => inject_Z (Z.of_nat i)) sentences).

Definition zero_labels : label_scorer := fun _ _ => Ok (zero_scores, 0%Q).

(** The thresholds of a cleaned record, read off the record itself: its
    highlights are the newline-separated pieces of [highlights], and the
    words of a highlight are counted as the cleaning code counts them, as
    the pieces between single spaces. *)
Definition meets_thresholds (r : data_point) : bool :=
  let hs := split_char newline (highlights r) in
  Nat.leb 3 (length hs) && Nat.leb (length hs) 5 &&
  forallb (fun h => Nat.ltb 3 (length (split_char " " h)) && any isalpha h) hs &&
  Nat.leb 300 (len (article r)).

Definition has_newline (s : string) : bool :=
  any (fun c => bool_decide (c = newline)) s.

(** A toy sentence splitter: sentences end at a vertical bar. *)
Definition bar_sents (text : string) : list string := split_char "|" text.

Fixpoint repeat_string (n : nat) (s : string) : string :=
  match n with
  | O => EmptyString
  | S n' => s +:+ repeat_string n' s
  end.

Definition fox_article : string :=
  repeat_string 8 "The quick brown fox jumps over the lazy dog. ".

Definition fox_point : data_point :=
  mk_point fox_article
    ("Go home now " +:+ NL +:+ "|He went back to the house" +:+ NL +:+
     "|She stayed at the office today").

Definition fox_cleaned : data_point :=
  mk_point (strip fox_article)
    (join NL ["Go home now"; "He went back to the house";
              "She stayed at the office today"]).

(** The error of an unrecognised aggregation identifier. *)
Definition is_invalid_aggregation (e : exn) : bool :=
  match e with
  | ValueError msg => startswith "Invalid aggregation parameter: " msg
  | _ => false
  end.

Definition valid_aggregations : list string := ["max"; "average"; "harmonic"].

(** [ranks_before key a b]: in a descending, stable ranking of positions
    [a] may stand before [b]: its score is higher, or the scores are equal
    and [a] is the earlier position. *)
Definition ranks_before (key : nat -> Q) (a b : nat) : Prop :=
  (key b < key a)%Q ∨ ((key a == key b)%Q ∧ a < b).

(** A scorer that answers the same three scores whatever it is given. *)
Definition abc_model : relevance_model :=
  fun _ _ => PyList [(2 # 10)%Q; (9 # 10)%Q; (5 # 10)%Q].

(** The same scores as the logits of a one-label classifier. *)
Definition abc_classifier : classifier :=
  fun _ _ => [(2 # 10)%Q; (9 # 10)%Q; (5 # 10)%Q].

(** A one-label classifier that prefers later sentences. *)
Definition later_classifier : classifier :=
  fun sentences _ => imap (fun i _ => inject_Z (Z.of_nat i)) sentences.

(** An article of one sentence followed by an article of two. *)
Definition lone_article : list example :=
  [mk_example "a1" "A" "hA"; mk_example "b1" "B" "hB"; mk_example "b2" "B" "hB"].

(** The relevance model answers a list of scores on the run [g]. *)
Definition answers_list (model : relevance_model) (g : string * list string) : Prop :=
  ∃ scores, model g.2 (replicate (length g.2) g.1) = PyList scores.

Definition two_refs : list (gmap string (gmap string Q)) :=
  [ {[ "rouge-1" := prf (1#2) (1#2) (1#2); "rouge-2" := prf (1#4) (1#4) (1#4);
       "rouge-l" := prf (1#2) (1#2) (1#2) ]};
    {[ "rouge-1" := prf (1#8) (1#8) (1#8); "rouge-2" := prf (1#4) (1#4) (1#4);
       "rouge-l" := prf (1#8) (1#8) (1#8) ]} ].

(** ** utils.is_similar_string and utils.compute_mrr_single_doc *)

(** [max] of a non-empty list given as head and tail, as [py_max] scans it. *)
Definition max_from (a : Q) (l : list Q) : Q :=
  fold_left (fun m y => if Qle_bool y m then m else y) l a.

Section SimilarStrings.
(** [difflib.SequenceMatcher(None, string1, string2).ratio()]. *)
Variable ratio : string -> string -> Q.

Definition is_similar_string (string1 string2 : string) : bool :=
  if contains string1 string2 || contains string2 string1 then true
  else if Qle_bool (8 # 10) (ratio string1 string2) then true
  else false.

(** The inner loop over [enumerate(sents_pred, start=rank)]: the rank of
    the first predicted sentence similar to [gt_highlight]. *)
Fixpoint first_rank (sents_pred : list string) (gt_highlight : string)
    (rank : nat) : option nat :=
  match sents_pred with
  | [] => None
  | item :: rest =>
      if is_similar_string item gt_highlight then Some rank
      else first_rank rest gt_highlight (S rank)
  end.

Definition reciprocal_ranks (sents_pred sents_gt : list string) : list Q :=
  omap (fun gt_highlight =>
          (fun rank => (1 / inject_Z (Z.of_nat rank))%Q)
            <$> first_rank sents_pred gt_highlight 1) sents_gt.

Definition compute_mrr_single_doc (sents_pred sents_gt : list string) : Q :=
  match reciprocal_ranks sents_pred sents_gt with
  | [] => 0%Q
  | a :: l => max_from a l
  end.
End SimilarStrings.

(** ** utils.Explorer *)

(** [split_sentence_article(nlp, text)]; [nlp_sents] gives the sentence
    texts of [nlp(text).sents]. *)
Definition split_sentence_article (nlp_sents : string -> list string)
    (text : string) : list string :=
  map (fun sent_text => strip (remove_char newline sent_text)) (nlp_sents text).

(** [math.ceil]. *)
Definition ceil (x : Q) : Z := Qceiling x.

(** [l[a:b]] and [l[a:]] for indices that are not negative. *)
Definition slice {A} (l : list A) (a b : Z) : list A :=
  drop (Z.to_nat a) (take (Z.to_nat b) l).

Definition slice_from {A} (l : list A) (a : Z) : list A := drop (Z.to_nat a) l.

Definition create_sections {A} (sentences : list A) : list (list A) :=
  let n := Z.of_nat (length sentences) in
  let cut1 := ceil (inject_Z n / 3) in
  let cut2 := ceil (inject_Z cut1 + (inject_Z (n - cut1) / 2)) in
  [slice sentences 0 cut1; slice sentences cut1 cut2; slice_from sentences cut2].

(** ** More specification-side notions *)

Definition starts_with_space (s : string) : bool :=
  match s with
  | EmptyString => false
  | String c _ => isspace c
  end.

(** [x] occurs in [s] as a contiguous piece. *)
Definition substring_of (x s : string) : Prop :=
  ∃ before after, s = before +:+ x +:+ after.

(** The ROUGE engine with its failures replaced by the zero dictionary. *)
Definition recovered (rouge_get_scores : string -> string -> result (gmap string (gmap string Q)))
    : string -> string -> result (gmap string (gmap string Q)) :=
  fun sentence reference =>
    match rouge_get_scores sentence reference with
    | Ok d => Ok d
    | Err _ => Ok zero_scores
    end.

(** The engine calls [compute_rouges] makes when it runs to its end. *)
Definition expected_calls (sentences references : list string) : trace :=
  flat_map (fun sentence =>
              if degenerate sentence then []
              else map (RougeCall sentence) references) sentences.

(** The per-reference values the two modes of [compute_rouges] collect. *)
Definition test_score (rouge_get_scores : string -> string -> result (gmap string (gmap string Q)))
    (sentence reference : string) : gmap string (gmap string Q) :=
  match rouge_get_scores sentence reference with
  | Ok d => d
  | Err _ => zero_scores
  end.

Definition train_score (rouge_get_scores : string -> string -> result (gmap string (gmap string Q)))
    (sentence reference : string) : Q :=
  match rouge_get_scores sentence reference ≫= (fun d => leaf d "rouge-2" "f") with
  | Ok x => x
  | Err _ => 0%Q
  end.

(** What each aggregation function raises on an empty list. *)
Definition empty_error (aggregation : string) : exn :=
  if decide (aggregation = "max") then ValueError "max() arg is an empty sequence"
  else if decide (aggregation = "average") then ZeroDivisionError
  else StatisticsError.

Definition is_float (v : value) : bool :=
  match v with VFloat _ => true | VDict _ => false end.

(** All nine leaves are present (whatever their values). *)
Definition has_leaves (d : gmap string (gmap string Q)) : Prop :=
  ∀ key metric, key ∈ keys → metric ∈ metrics → ∃ x, leaf d key metric = Ok x.

Definition row_highlights (ex : example) : list string :=
  split_char newline (example_highlights ex).

(** The rows that start a run of identical contexts. *)
Fixpoint run_heads_from (previous : option string) (dataset : list example)
    : list example :=
  match dataset with
  | [] => []
  | ex :: rest =>
      if decide (Some (context ex) = previous) then run_heads_from previous rest
      else ex :: run_heads_from (Some (context ex)) rest
  end.

Definition run_heads (dataset : list example) : list example :=
  run_heads_from None dataset.

(** The reference highlights each run ends up scored against, in order:
    every run but the last against the highlights of the row that starts
    the next run, the last run against the highlights of its own first
    row. *)
Definition closing_highlights (dataset : list example) : list (list string) :=
  match run_heads dataset with
  | [] => []
  | head :: later =>
      map row_highlights later ++
      [default (row_highlights head) (last (map row_highlights later))]
  end.

(** The same from an open group with highlights [h0]. *)
Fixpoint closing_highlights_from (c : string) (h0 : list string)
    (dataset : list example) : list (list string) :=
  match dataset with
  | [] => [h0]
  | ex :: rest =>
      if decide (context ex = c) then closing_highlights_from c h0 rest
      else row_highlights ex ::
           closing_highlights_from (context ex) (row_highlights ex) rest
  end.

(** The part of a trace that closes one group: the call of the relevance
    model on the run [g], then at most [num_highlight] calls of the label
    scorer, each against the highlights [gt]. *)
Definition scored_segment (num_highlight : nat) (segment : trace)
    (plan : (string * list string) * list string) : Prop :=
  ∃ labels,
    segment = ModelCall plan.1.2 (replicate (length plan.1.2) plan.1.1) :: labels ∧
    (length labels ≤ num_highlight)%nat ∧
    Forall (λ e, ∃ h, e = LabelCall h (Some plan.2)) labels.

Example split_ex : split "  the cat  sat " = ["the"; "cat"; "sat"].
Proof. reflexivity. Qed.
Example split_char_ex : split_char " " " a b c" = [""; "a"; "b"; "c"].
Proof. reflexivity. Qed.
Example strip_ex : strip "  a b c
" = "a b c".
Proof. reflexivity. Qed.
Example split_once_ex : split_once "--" "LONDON -- text -- more" = Some ("LONDON ", " text -- more").
Proof. reflexivity. Qed.
Example tb_ex : trigram_blocking ["The cat sat down"; "a b"; "so the CAT sat"; "x y z"] = ["The cat sat down"; "a b"; "x y z"].
Proof. vm_compute. reflexivity. Qed.

(** * Properties *)

(** ** Trigram blocking *)

Lemma trigram_loop_app sentences summary T :
  trigram_loop sentences summary T = summary ++ trigram_loop sentences [] T.
Proof.
  revert summary T.
  induction sentences as [|s rest IH]; intros summary T; simpl.
  - by rewrite app_nil_r.
  - destruct (decide (T ∩ sentence_trigrams s = ∅)).
    + rewrite (IH (summary ++ [s])), (IH [s]). by rewrite <- app_assoc.
    + apply IH.
Qed.

Lemma trigram_loop_cons s rest T :
  trigram_loop (s :: rest) [] T =
  if decide (T ∩ sentence_trigrams s = ∅)
  then s :: trigram_loop rest [] (T ∪ sentence_trigrams s)
  else trigram_loop rest [] T.
Proof.
  simpl. destruct (decide _); [|done].
  by rewrite trigram_loop_app.
Qed.

Lemma trigram_loop_sublist rest T : trigram_loop rest [] T `sublist_of` rest.
Proof.
  revert T. induction rest as [|s rest IH]; intros T.
  - done.
  - rewrite trigram_loop_cons. destruct (decide _).
    + by apply sublist_skip.
    + by apply sublist_cons.
Qed.

(** Whatever is accepted shares no trigram with the running set it was
    tested against, nor with any smaller one. *)
Lemma trigram_loop_fresh rest T a :
  a ∈ trigram_loop rest [] T → T ∩ sentence_trigrams a = ∅.
Proof.
  revert T. induction rest as [|s rest IH]; intros T.
  - simpl. by intros ?%elem_of_nil.
  - rewrite trigram_loop_cons. destruct (decide _) as [Hs|Hs].
    + intros [->|Hin]%elem_of_cons; [done|].
      apply IH in Hin. set_solver.
    + apply IH.
Qed.

Lemma trigram_loop_pairwise rest T i j a b :
  i < j →
  trigram_loop rest [] T !! i = Some a →
  trigram_loop rest [] T !! j = Some b →
  sentence_trigrams a ∩ sentence_trigrams b = ∅.
Proof.
  revert T i j. induction rest as [|s rest IH]; intros T i j Hij.
  - done.
  - rewrite trigram_loop_cons. destruct (decide _) as [Hs|Hs]; [|by apply IH].
    destruct j as [|j]; [lia|]. destruct i as [|i]; simpl.
    + intros [= ->] Hb. apply list_elem_of_lookup_2, trigram_loop_fresh in Hb.
      set_solver.
    + apply IH. lia.
Qed.

Lemma ngrams3_short ws : length ws < 3 → ngrams3 ws = [].
Proof.
  destruct ws as [|a [|b [|c ws]]]; simpl; intros; try done. lia.
Qed.

Lemma trigram_loop_short rest T :
  filter (λ s, length (split (lower s)) < 3) rest
    `sublist_of` trigram_loop rest [] T.
Proof.
  revert T. induction rest as [|s rest IH]; intros T.
  - done.
  - rewrite trigram_loop_cons, filter_cons.
    destruct (decide (length (split (lower s)) < 3)) as [Hshort|Hlong].
    + assert (sentence_trigrams s = ∅) as Hempty.
      { unfold sentence_trigrams. by rewrite ngrams3_short. }
      rewrite Hempty. rewrite decide_True by set_solver.
      by apply sublist_skip.
    + destruct (decide _); [by apply sublist_cons | done].
Qed.

(** C3. The output of [trigram_blocking] is a subsequence of its input;
    two output sentences, one earlier than the other, share no lower-cased
    word trigram; and every occurrence of a sentence of fewer than three
    words is in the output (the short sentences of the input, in order,
    are a subsequence of the output). *)
Theorem trigram_blocking_guarantees (sentences : list string) :
  trigram_blocking sentences `sublist_of` sentences ∧
  (∀ i j a b, i < j →
     trigram_blocking sentences !! i = Some a →
     trigram_blocking sentences !! j = Some b →
     sentence_trigrams a ∩ sentence_trigrams b = ∅) ∧
  filter (λ s, length (split (lower s)) < 3) sentences
    `sublist_of` trigram_blocking sentences ∧
  (∀ s, s ∈ sentences → length (split (lower s)) < 3 →
     s ∈ trigram_blocking sentences).
Proof.
  unfold trigram_blocking. split; [apply trigram_loop_sublist|].
  split; [intros i j a b; apply trigram_loop_pairwise|].
  split; [apply trigram_loop_short|].
  intros s Hin Hshort.
  eapply elem_of_sublist; [|apply trigram_loop_short].
  apply list_elem_of_filter. done.
Qed.

(** ** Test-mode aggregation *)

Lemma ScoreDict_leaf d key metric :
  ScoreDict d → key ∈ keys → metric ∈ metrics →
  ∃ x, leaf d key metric = Ok x ∧ (0 <= x)%Q ∧ (x <= 1)%Q.
Proof.
  unfold ScoreDict, is_score_dict. rewrite forallb_forall.
  intros Hd Hkey Hmetric.
  specialize (Hd key (proj1 (list_elem_of_In _ _) Hkey)).
  rewrite forallb_forall in Hd.
  specialize (Hd metric (proj1 (list_elem_of_In _ _) Hmetric)).
  destruct (leaf d key metric) as [x|]; [|done].
  apply andb_true_iff in Hd as [H0 H1].
  exists x. by rewrite <- !Qle_bool_iff.
Qed.

Lemma ScoreDict_rouge_2_f d :
  ScoreDict d → ∃ x, leaf d "rouge-2" "f" = Ok x ∧ (0 <= x)%Q.
Proof.
  intros Hd.
  destruct (ScoreDict_leaf d "rouge-2" "f" Hd) as (x & ? & ? & ?); eauto.
  - unfold keys. set_solver.
  - unfold metrics. set_solver.
Qed.

(** The loop either keeps the dictionary it started with, every score
    being below the running maximum, or ends on the last of the highest. *)
Lemma aggregate_loop_spec scores m b :
  (∀ d, d ∈ scores → ∃ x, leaf d "rouge-2" "f" = Ok x) →
  (aggregate_loop scores m b = Ok b ∧
   ∀ j d y, scores !! j = Some d → leaf d "rouge-2" "f" = Ok y → (y < m)%Q)
  ∨ (∃ i best x,
       scores !! i = Some best ∧ aggregate_loop scores m b = Ok best ∧
       leaf best "rouge-2" "f" = Ok x ∧ (m <= x)%Q ∧
       (∀ j d y, scores !! j = Some d → leaf d "rouge-2" "f" = Ok y → (y <= x)%Q) ∧
       (∀ j d y, i < j → scores !! j = Some d →
          leaf d "rouge-2" "f" = Ok y → (y < x)%Q)).
Proof.
  revert m b. induction scores as [|d rest IH]; intros m b Hwf.
  - left. split; [done|]. intros j d y Hj. done.
  - destruct (Hwf d) as [x0 Hx0]; [by left|].
    assert (∀ d', d' ∈ rest → ∃ x, leaf d' "rouge-2" "f" = Ok x) as Hrest.
    { intros d' Hd'. apply Hwf. by right. }
    simpl. rewrite Hx0.
    destruct (Qle_bool m x0) eqn:Hcmp.
    + apply Qle_bool_iff in Hcmp.
      destruct (IH x0 d Hrest) as [[Hres Hlt]|(i & best & x & Hi & Hres & Hx & Hle & Hall & Hlater)].
      * right. exists 0, d, x0. repeat split; try done.
        -- intros [|j] d' y Hj Hy; simpl in Hj.
           ++ injection Hj as <-. rewrite Hx0 in Hy. injection Hy as <-. lra.
           ++ apply Qlt_le_weak. eauto.
        -- intros [|j] d' y Hlt' Hj Hy; [lia|]. simpl in Hj. eauto.
      * right. exists (S i), best, x. repeat split; try done.
        -- lra.
        -- intros [|j] d' y Hj Hy; simpl in Hj; [|by eauto].
           injection Hj as <-. rewrite Hx0 in Hy. by injection Hy as <-.
        -- intros [|j] d' y Hlt' Hj Hy; [lia|]. simpl in Hj.
           eapply (Hlater j); [lia|done..].
    + assert (x0 < m)%Q as Hlt0.
      { apply Qnot_le_lt. intros Hle. apply Qle_bool_iff in Hle. congruence. }
      destruct (IH m b Hrest) as [[Hres Hlt]|(i & best & x & Hi & Hres & Hx & Hle & Hall & Hlater)].
      * left. split; [done|].
        intros [|j] d' y Hj Hy; simpl in Hj; [|by eauto].
        injection Hj as <-. rewrite Hx0 in Hy. by injection Hy as <-.
      * right. exists (S i), best, x. repeat split; try done.
        -- intros [|j] d' y Hj Hy; simpl in Hj; [|by eauto].
           injection Hj as <-. rewrite Hx0 in Hy. injection Hy as <-. lra.
        -- intros [|j] d' y Hlt' Hj Hy; [lia|]. simpl in Hj.
           eapply (Hlater j); [lia|done..].
Qed.

(** C6. On a non-empty list of score dictionaries, [aggregate_test_scores]
    returns one of them whole: its rouge-2 f is the highest of the list,
    and every later dictionary has a strictly lower one (of several
    highest, the last is returned). Being the dictionary itself, its
    rouge-1 and rouge-l entries are those of that same reference. *)
Theorem aggregate_test_scores_best (scores : list (gmap string (gmap string Q))) :
  scores ≠ [] →
  Forall ScoreDict scores →
  ∃ i best x,
    scores !! i = Some best ∧
    aggregate_test_scores scores = Ok best ∧
    leaf best "rouge-2" "f" = Ok x ∧
    (∀ j d y, scores !! j = Some d → leaf d "rouge-2" "f" = Ok y → (y <= x)%Q) ∧
    (∀ j d y, i < j → scores !! j = Some d →
       leaf d "rouge-2" "f" = Ok y → (y < x)%Q).
Proof.
  intros Hne Hall. rewrite Forall_forall in Hall.
  unfold aggregate_test_scores.
  destruct (aggregate_loop_spec scores 0%Q ∅) as [[_ Hlt]|(i & best & x & ? & ? & ? & ? & ? & ?)].
  - intros d Hd. destruct (ScoreDict_rouge_2_f d) as (x & ? & ?); eauto.
  - destruct scores as [|d rest]; [done|].
    destruct (ScoreDict_rouge_2_f d) as (x & Hx & Hpos); [apply Hall; by left|].
    specialize (Hlt 0 d x eq_refl Hx). lra.
  - exists i, best, x. done.
Qed.

Lemma aggregate_test_scores_best_witness :
  ∃ i best x,
    two_refs !! i = Some best ∧
    aggregate_test_scores two_refs = Ok best ∧
    leaf best "rouge-2" "f" = Ok x ∧
    (∀ j d y, two_refs !! j = Some d → leaf d "rouge-2" "f" = Ok y → (y <= x)%Q) ∧
    (∀ j d y, i < j → two_refs !! j = Some d →
       leaf d "rouge-2" "f" = Ok y → (y < x)%Q).
Proof.
  apply (aggregate_test_scores_best two_refs).
  - discriminate.
  - repeat constructor.
Defined.

(** ** Averaging score dictionaries *)

Lemma sum_leaves_ok dict_list key metric acc :
  (∀ d, d ∈ dict_list → ∃ x, leaf d key metric = Ok x) →
  ∃ values total,
    Forall2 (λ d v, leaf d key metric = Ok v) dict_list values ∧
    sum_leaves dict_list key metric acc = Ok total ∧
    (total == acc + foldr Qplus 0 values)%Q.
Proof.
  revert acc. induction dict_list as [|d rest IH]; intros acc Hwf.
  - exists [], acc. simpl. repeat split; [constructor | ring].
  - destruct (Hwf d) as [x Hx]; [by left|].
    destruct (IH (acc + x)%Q) as (values & total & Hvalues & Hsum & Htotal).
    { intros d' Hd'. apply Hwf. by right. }
    exists (x :: values), total. simpl. rewrite Hx.
    repeat split; [by constructor | done |]. rewrite Htotal. ring.
Qed.

Lemma true_div_ok a n :
  n ≠ 0 → true_div a n = Ok (a / inject_Z (Z.of_nat n))%Q.
Proof. by destruct n. Qed.

Lemma avg_leaf_ok dict_list key metric :
  dict_list ≠ [] →
  (∀ d, d ∈ dict_list → ∃ x, leaf d key metric = Ok x) →
  ∃ values x,
    Forall2 (λ d v, leaf d key metric = Ok v) dict_list values ∧
    avg_leaf dict_list key metric = Ok x ∧
    (x == arithmetic_mean values)%Q.
Proof.
  intros Hne Hwf.
  destruct (sum_leaves_ok dict_list key metric 0%Q Hwf)
    as (values & total & Hvalues & Hsum & Htotal).
  unfold avg_leaf. rewrite Hsum. simpl.
  rewrite true_div_ok by (by destruct dict_list).
  exists values. eexists. split; [done|]. split; [done|].
  unfold arithmetic_mean. rewrite <- (Forall2_length _ _ _ Hvalues).
  rewrite Htotal, Qplus_0_l. reflexivity.
Qed.

(** The inner loop rewrites the entry of [key] and nothing else. *)
Lemma fill_metrics_spec dict_list key ms avg_dict inner :
  avg_dict !! key = Some inner →
  (∀ m, m ∈ ms → ∃ x, avg_leaf dict_list key m = Ok x) →
  ∃ inner',
    fill_metrics dict_list key ms avg_dict = Ok (<[key := inner']> avg_dict) ∧
    (∀ m x, m ∈ ms → avg_leaf dict_list key m = Ok x → inner' !! m = Some x) ∧
    (∀ m, m ∉ ms → inner' !! m = inner !! m).
Proof.
  revert avg_dict inner. induction ms as [|m0 rest IH]; intros avg_dict inner Hkey Hok.
  - exists inner. simpl. rewrite insert_id by done. repeat split; try done.
    intros m x Hm. by apply elem_of_nil in Hm.
  - destruct (Hok m0) as [v Hv]; [by left|].
    simpl. rewrite Hv. unfold getitem. rewrite Hkey.
    destruct (IH (<[key := <[m0 := v]> inner]> avg_dict) (<[m0 := v]> inner))
      as (inner' & Hres & Hin & Hout).
    { by rewrite lookup_insert_eq. }
    { intros m Hm. apply Hok. by right. }
    exists inner'. rewrite Hres, insert_insert_eq. split; [done|]. split.
    + intros m x Hm Hx.
      destruct (decide (m ∈ rest)) as [Hrest|Hrest]; [by apply Hin|].
      apply elem_of_cons in Hm as [->|Hm]; [|done].
      rewrite (Hout m0 Hrest), lookup_insert_eq. congruence.
    + intros m Hm. apply not_elem_of_cons in Hm as [Hne Hm].
      rewrite (Hout m Hm). by rewrite lookup_insert_ne.
Qed.

Lemma fill_keys_spec dict_list ks avg_dict :
  (∀ key m, key ∈ ks → m ∈ metrics → ∃ x, avg_leaf dict_list key m = Ok x) →
  ∃ avg',
    fill_keys dict_list ks avg_dict = Ok avg' ∧
    (∀ key, key ∈ ks → ∃ inner',
       avg' !! key = Some inner' ∧
       (∀ m x, m ∈ metrics → avg_leaf dict_list key m = Ok x → inner' !! m = Some x) ∧
       (∀ m, m ∉ metrics → inner' !! m = None)) ∧
    (∀ key, key ∉ ks → avg' !! key = avg_dict !! key).
Proof.
  revert avg_dict. induction ks as [|k0 rest IH]; intros avg_dict Hok.
  - exists avg_dict. simpl. repeat split; try done.
    intros key Hkey. by apply elem_of_nil in Hkey.
  - destruct (fill_metrics_spec dict_list k0 metrics (<[k0 := ∅]> avg_dict) ∅)
      as (inner0 & Hres0 & Hin0 & Hout0).
    { by rewrite lookup_insert_eq. }
    { intros m Hm. apply Hok; [by left | done]. }
    cbn [fill_keys]. rewrite Hres0, insert_insert_eq.
    destruct (IH (<[k0 := inner0]> avg_dict)) as (avg' & Hres & Hin & Hout).
    { intros key m Hkey Hm. apply Hok; [by right | done]. }
    exists avg'. split; [done|]. split.
    + intros key Hkey.
      destruct (decide (key ∈ rest)) as [Hrest|Hrest]; [by apply Hin|].
      apply elem_of_cons in Hkey as [->|Hkey]; [|done].
      exists inner0. rewrite (Hout k0 Hrest), lookup_insert_eq.
      repeat split; [done|]. intros m Hm. by rewrite (Hout0 m Hm).
    + intros key Hkey. apply not_elem_of_cons in Hkey as [Hne Hkey].
      rewrite (Hout key Hkey). by rewrite lookup_insert_ne.
Qed.

Lemma compute_avg_dict_ok dict_list :
  dict_list ≠ [] → Forall ScoreDict dict_list →
  ∃ avg, compute_avg_dict dict_list = Ok avg.
Proof.
  intros Hne Hall. rewrite Forall_forall in Hall.
  destruct (fill_keys_spec dict_list keys ∅) as (avg & Hres & _); [|eauto].
  intros key m Hkey Hm.
  destruct (avg_leaf_ok dict_list key m Hne) as (? & x & _ & ? & _); [|eauto].
  intros d Hd.
  destruct (ScoreDict_leaf d key m (Hall d Hd) Hkey Hm) as (x & ? & _). eauto.
Qed.

(** C8. For an empty list [compute_avg_dict] raises [ZeroDivisionError].
    For a non-empty list of score dictionaries it returns a dictionary
    with exactly the keys rouge-1, rouge-2, rouge-l, each holding exactly
    the metrics f, p, r, and each leaf is the arithmetic mean of the
    corresponding leaves of the inputs. *)
Theorem compute_avg_dict_mean :
  compute_avg_dict [] = Err ZeroDivisionError ∧
  ∀ dict_list : list (gmap string (gmap string Q)),
    dict_list ≠ [] →
    Forall ScoreDict dict_list →
    ∃ avg,
      compute_avg_dict dict_list = Ok avg ∧
      (∀ key, key ∉ keys → avg !! key = None) ∧
      ∀ key, key ∈ keys →
        ∃ inner,
          avg !! key = Some inner ∧
          (∀ metric, metric ∉ metrics → inner !! metric = None) ∧
          ∀ metric, metric ∈ metrics →
            ∃ x values,
              inner !! metric = Some x ∧
              Forall2 (λ d v, leaf d key metric = Ok v) dict_list values ∧
              (x == arithmetic_mean values)%Q.
Proof.
  split; [reflexivity|].
  intros dict_list Hne Hall. rewrite Forall_forall in Hall.
  assert (∀ key m, key ∈ keys → m ∈ metrics →
            ∀ d, d ∈ dict_list → ∃ x, leaf d key m = Ok x) as Hleaf.
  { intros key m Hkey Hm d Hd.
    destruct (ScoreDict_leaf d key m (Hall d Hd) Hkey Hm) as (x & ? & _). eauto. }
  destruct (fill_keys_spec dict_list keys ∅) as (avg & Hres & Hin & Hout).
  { intros key m Hkey Hm.
    destruct (avg_leaf_ok dict_list key m Hne (Hleaf key m Hkey Hm))
      as (? & x & _ & ? & _). eauto. }
  exists avg. split; [done|]. split.
  - intros key Hkey. by rewrite (Hout key Hkey).
  - intros key Hkey. destruct (Hin key Hkey) as (inner & Hinner & Hm & Hnone).
    exists inner. repeat split; [done..|].
    intros metric Hmetric.
    destruct (avg_leaf_ok dict_list key metric Hne (Hleaf key metric Hkey Hmetric))
      as (values & x & Hvalues & Hx & Hmean).
    exists x, values. repeat split; [|done..]. by apply Hm.
Qed.

Lemma compute_avg_dict_mean_witness :
  ∃ avg,
    compute_avg_dict two_refs = Ok avg ∧
    (∀ key, key ∉ keys → avg !! key = None) ∧
    ∀ key, key ∈ keys →
      ∃ inner,
        avg !! key = Some inner ∧
        (∀ metric, metric ∉ metrics → inner !! metric = None) ∧
        ∀ metric, metric ∈ metrics →
          ∃ x values,
            inner !! metric = Some x ∧
            Forall2 (λ d v, leaf d key metric = Ok v) two_refs values ∧
            (x == arithmetic_mean values)%Q.
Proof.
  apply (proj2 compute_avg_dict_mean two_refs).
  - discriminate.
  - repeat constructor.
Defined.

(** ** Ranking *)

Lemma insert_desc_perm {A} (key : A → Q) x l : insert_desc key x l ≡ₚ x :: l.
Proof.
  induction l as [|y l IH]; simpl; [done|].
  destruct (Qle_bool (key y) (key x)); [done|].
  rewrite IH. apply Permutation_swap.
Qed.

Lemma sorted_reverse_perm {A} (key : A → Q) l : sorted_reverse key l ≡ₚ l.
Proof.
  induction l as [|x l IH]; simpl; [done|].
  rewrite insert_desc_perm. by rewrite IH.
Qed.

Lemma insert_desc_sorted key x l :
  StronglySorted (ranks_before key) l →
  Forall (lt x) l →
  StronglySorted (ranks_before key) (insert_desc key x l).
Proof.
  induction l as [|y l IH]; intros Hsorted Hlt; simpl.
  - repeat constructor.
  - apply StronglySorted_inv in Hsorted as [Hsorted Hy].
    apply Forall_cons in Hlt as [Hxy Hlt].
    destruct (Qle_bool (key y) (key x)) eqn:Hcmp.
    + apply Qle_bool_iff in Hcmp.
      constructor; [by constructor|].
      assert (∀ z, z ∈ y :: l → x < z ∧ (key z <= key x)%Q) as Hz.
      { intros z [->|Hzl]%elem_of_cons; [done|].
        rewrite Forall_forall in Hlt, Hy. split; [by apply Hlt|].
        destruct (Hy z Hzl) as [?|[? _]]; lra. }
      apply Forall_forall. intros z Hzin. destruct (Hz z Hzin) as [? Hle].
      destruct (Qlt_le_dec (key z) (key x)) as [?|?]; [by left|].
      right. split; [lra | done].
    + assert (key x < key y)%Q as Hlow.
      { apply Qnot_le_lt. intros Hle. apply Qle_bool_iff in Hle. congruence. }
      constructor; [by apply IH|].
      rewrite insert_desc_perm. constructor; [by left | done].
Qed.

Lemma sorted_reverse_sorted key l :
  StronglySorted lt l → StronglySorted (ranks_before key) (sorted_reverse key l).
Proof.
  induction l as [|x l IH]; intros Hl; simpl; [constructor|].
  apply StronglySorted_inv in Hl as [Hl Hx].
  apply insert_desc_sorted; [by apply IH|].
  by rewrite sorted_reverse_perm.
Qed.

Lemma seq_sorted start n : StronglySorted lt (seq start n).
Proof.
  revert start. induction n as [|n IH]; intros start; simpl; constructor; [done|].
  apply Forall_forall. intros j Hj%elem_of_seq. lia.
Qed.

Lemma StronglySorted_lookup {A} (R : relation A) l k1 k2 a b :
  StronglySorted R l → k1 < k2 → l !! k1 = Some a → l !! k2 = Some b → R a b.
Proof.
  intros Hl. revert k1 k2. induction Hl as [|x l Hl IH Hx]; intros k1 k2 Hk; [done|].
  destruct k2 as [|k2]; [lia|]. destruct k1 as [|k1]; simpl.
  - intros [= ->] Hb. rewrite Forall_forall in Hx.
    apply Hx. by eapply list_elem_of_lookup_2.
  - apply IH. lia.
Qed.

Lemma select_ok {A} (l : list A) indices :
  Forall (λ i, i < length l) indices →
  ∃ out, select l indices = Ok out ∧ Forall2 (λ i x, l !! i = Some x) indices out.
Proof.
  induction indices as [|i rest IH]; intros Hall; simpl.
  - exists []. split; [done | constructor].
  - apply Forall_cons in Hall as [Hi Hall].
    destruct (lookup_lt_is_Some_2 l i Hi) as [x Hx].
    destruct (IH Hall) as (out & Hout & Hrel).
    exists (x :: out). rewrite Hx, Hout. split; [done | by constructor].
Qed.

(** The ranking [get_scores] computes when the model yields one score per
    sentence. *)
Lemma get_scores_spec :
  ∀ (sentences : list string) (context : string) (model : relevance_model)
    (scores : list Q) (tr : trace),
    model sentences (replicate (length sentences) context) = PyList scores →
    length scores = length sentences →
    ∃ (idx : list nat) (sorted_sentences : list string) (sorted_scores : list Q),
      get_scores sentences context model tr =
        (Ok (sorted_sentences, sorted_scores),
         tr ++ [ModelCall sentences (replicate (length sentences) context)]) ∧
      idx ≡ₚ seq 0 (length sentences) ∧
      Forall2 (λ i s, sentences !! i = Some s) idx sorted_sentences ∧
      Forall2 (λ i x, scores !! i = Some x) idx sorted_scores ∧
      (∀ k1 k2 x y, k1 < k2 →
         sorted_scores !! k1 = Some x → sorted_scores !! k2 = Some y → (y <= x)%Q) ∧
      (∀ k1 k2 i j x y, k1 < k2 →
         idx !! k1 = Some i → idx !! k2 = Some j →
         scores !! i = Some x → scores !! j = Some y → (x == y)%Q → i < j).
Proof.
  intros sentences context model scores tr Hmodel Hlen.
  set (key := λ i : nat, default 0%Q (scores !! i)).
  set (idx := sorted_reverse key (seq 0 (length scores))).
  assert (idx ≡ₚ seq 0 (length scores)) as Hperm by apply sorted_reverse_perm.
  assert (StronglySorted (ranks_before key) idx) as Hsorted
    by apply sorted_reverse_sorted, seq_sorted.
  assert (Forall (λ i, i < length scores) idx) as Hrange.
  { rewrite Hperm. apply Forall_forall. intros i Hi%elem_of_seq. lia. }
  destruct (select_ok scores idx Hrange) as (sorted_scores & Hsc & Hrel_sc).
  destruct (select_ok sentences idx) as (sorted_sentences & Hse & Hrel_se).
  { by rewrite <- Hlen. }
  exists idx, sorted_sentences, sorted_scores.
  split.
  { unfold get_scores, emit, lift, mbind, M_bind, mret, M_ret.
    rewrite Hmodel. fold key. fold idx. by rewrite Hse, Hsc. }
  split; [by rewrite <- Hlen|]. split; [done|]. split; [done|]. split.
  - intros k1 k2 x y Hk Hx Hy.
    destruct (Forall2_lookup_r _ _ _ _ _ Hrel_sc Hx) as (i & Hi & Hix).
    destruct (Forall2_lookup_r _ _ _ _ _ Hrel_sc Hy) as (j & Hj & Hjy).
    pose proof (StronglySorted_lookup _ _ _ _ _ _ Hsorted Hk Hi Hj) as Hij.
    unfold ranks_before, key in Hij. rewrite Hix, Hjy in Hij. simpl in Hij.
    destruct Hij as [?|[? _]]; lra.
  - intros k1 k2 i j x y Hk Hi Hj Hix Hjy Heq.
    pose proof (StronglySorted_lookup _ _ _ _ _ _ Hsorted Hk Hi Hj) as Hij.
    unfold ranks_before, key in Hij. rewrite Hix, Hjy in Hij. simpl in Hij.
    destruct Hij as [?|[_ ?]]; [lra | done].
Qed.

Lemma squeeze_tolist_list logits :
  length logits ≠ 1 → squeeze_tolist logits = PyList logits.
Proof. by destruct logits as [|x [|y rest]]. Qed.

Lemma squeeze_tolist_float logits :
  length logits = 1 → ∃ x, squeeze_tolist logits = PyFloat x.
Proof. destruct logits as [|x [|y rest]]; [done | eauto | done]. Qed.

(** C9 (failing input). With the logits 0.2, 0.9, 0.5 for the sentences
    a, b, c the function returns [(["b","c","a"], [0.9, 0.5, 0.2])], but
    for the single sentence a with the logit 0.7 it raises [TypeError]
    instead of returning [(["a"], [0.7])]. In general, with a one-label
    classifier that answers one logit per sentence: on a batch of exactly
    one sentence [squeeze()] leaves a bare float and [len(scores)] raises
    [TypeError] after the model call; on every other batch [get_scores]
    returns two lists read off one ranking [idx] of the input positions,
    which is a permutation of the positions, with the scores descending
    and equal scores in input order. *)
Theorem get_scores_one_sentence_type_error :
  get_scores ["a"; "b"; "c"] "ctx" (one_label abc_classifier) [] =
    (Ok (["b"; "c"; "a"], [(9 # 10)%Q; (5 # 10)%Q; (2 # 10)%Q]),
     [ModelCall ["a"; "b"; "c"] ["ctx"; "ctx"; "ctx"]]) ∧
  get_scores ["a"] "ctx" (one_label (λ _ _, [(7 # 10)%Q])) [] =
    (Err TypeError, [ModelCall ["a"] ["ctx"]]) ∧
  ∀ (classify : classifier) (sentences : list string) (context : string) (tr : trace),
    let scores := classify sentences (replicate (length sentences) context) in
    length scores = length sentences →
    (length sentences = 1 →
       get_scores sentences context (one_label classify) tr =
         (Err TypeError,
          tr ++ [ModelCall sentences (replicate (length sentences) context)])) ∧
    (length sentences ≠ 1 →
       ∃ (idx : list nat) (sorted_sentences : list string) (sorted_scores : list Q),
         get_scores sentences context (one_label classify) tr =
           (Ok (sorted_sentences, sorted_scores),
            tr ++ [ModelCall sentences (replicate (length sentences) context)]) ∧
         idx ≡ₚ seq 0 (length sentences) ∧
         Forall2 (λ i s, sentences !! i = Some s) idx sorted_sentences ∧
         Forall2 (λ i x, scores !! i = Some x) idx sorted_scores ∧
         (∀ k1 k2 x y, k1 < k2 →
            sorted_scores !! k1 = Some x → sorted_scores !! k2 = Some y → (y <= x)%Q) ∧
         (∀ k1 k2 i j x y, k1 < k2 →
            idx !! k1 = Some i → idx !! k2 = Some j →
            scores !! i = Some x → scores !! j = Some y → (x == y)%Q → i < j)).
Proof.
  split; [reflexivity|]. split; [reflexivity|].
  intros classify sentences context tr scores Hlen. split.
  - intros Hone. unfold get_scores, one_label, mbind, M_bind, emit, raise, lift.
    fold scores.
    destruct (squeeze_tolist_float scores) as [x ->]; [congruence | done].
  - intros Hmany. apply get_scores_spec; [|done].
    unfold one_label. fold scores. apply squeeze_tolist_list. congruence.
Qed.

Lemma get_scores_one_sentence_type_error_witness :
  get_scores ["only"] "ctx" (one_label later_classifier) [] =
    (Err TypeError, [] ++ [ModelCall ["only"] (replicate (length ["only"]) "ctx")]).
Proof.
  apply (proj1 (proj2 (proj2 get_scores_one_sentence_type_error)
                  later_classifier ["only"] "ctx" [] eq_refl)).
  reflexivity.
Defined.

(** ** The monad of traced computations *)

Ltac unfold_M :=
  unfold mbind, M_bind, mret, M_ret, lift, emit, raise in *.

(** A traced computation only ever extends the trace. *)
Lemma for_each_events {A B} (f : A → M B) (P : A → event → Prop) l :
  (∀ a tr r tr', f a tr = (r, tr') → ∃ calls, tr' = tr ++ calls ∧ Forall (P a) calls) →
  ∀ tr r tr', for_each f l tr = (r, tr') →
    ∃ calls, tr' = tr ++ calls ∧ Forall (λ e, ∃ a, a ∈ l ∧ P a e) calls.
Proof.
  intros Hf. induction l as [|a l IH]; intros tr r tr' Hrun; simpl in Hrun.
  - injection Hrun as <- <-. exists []. by rewrite app_nil_r.
  - unfold_M. destruct (f a tr) as [ra tra] eqn:Ha.
    destruct (Hf _ _ _ _ Ha) as (calls_a & -> & Hcalls_a).
    assert (Forall (λ e, ∃ a', a' ∈ a :: l ∧ P a' e) calls_a) as Hhead.
    { eapply Forall_impl; [done|]. intros e He. exists a. split; [by left | done]. }
    destruct ra as [b|e].
    + destruct (for_each f l (tr ++ calls_a)) as [rl trl] eqn:Hl.
      destruct (IH _ _ _ Hl) as (calls_l & -> & Hcalls_l).
      exists (calls_a ++ calls_l). split.
      * destruct rl; injection Hrun as <- <-; by rewrite app_assoc.
      * apply Forall_app. split; [done|].
        eapply Forall_impl; [done|]. intros e (a' & ? & ?). exists a'. split; [by right | done].
    + injection Hrun as <- <-. by exists calls_a.
Qed.

(** A successful [for_each] gives one result per element, each a result
    of running the body on that element. *)
Lemma for_each_results {A B} (f : A → M B) l tr bs tr' :
  for_each f l tr = (Ok bs, tr') →
  Forall2 (λ a b, ∃ tr1 tr2, f a tr1 = (Ok b, tr2)) l bs.
Proof.
  revert tr bs. induction l as [|a l IH]; intros tr bs Hrun; simpl in Hrun.
  - injection Hrun as <- <-. constructor.
  - unfold_M. destruct (f a tr) as [[b|e] tra] eqn:Ha; [|done].
    destruct (for_each f l tra) as [[bl|e] trl] eqn:Hl; [|done].
    injection Hrun as <- <-. constructor; eauto.
Qed.

Lemma for_each_errors {A B} (f : A → M B) (P : exn → Prop) l :
  (∀ a tr e tr', f a tr = (Err e, tr') → P e) →
  ∀ tr e tr', for_each f l tr = (Err e, tr') → P e.
Proof.
  intros Hf. induction l as [|a l IH]; intros tr e tr' Hrun; simpl in Hrun; [done|].
  unfold_M. destruct (f a tr) as [[b|e0] tra] eqn:Ha.
  - destruct (for_each f l tra) as [[bl|e1] trl] eqn:Hl; [done|].
    injection Hrun as <- <-. eauto.
  - injection Hrun as <- <-. eauto.
Qed.

Lemma for_each_ok {A B} (f : A → M B) (P : B → Prop) l :
  (∀ a tr, ∃ b tr', f a tr = (Ok b, tr') ∧ P b) →
  ∀ tr, ∃ bs tr', for_each f l tr = (Ok bs, tr') ∧ Forall P bs ∧ length bs = length l.
Proof.
  intros Hf. induction l as [|a l IH]; intros tr; simpl.
  - exists [], tr. by repeat split.
  - unfold_M. destruct (Hf a tr) as (b & tr1 & -> & Hb).
    destruct (IH tr1) as (bs & tr2 & -> & Hbs & Hlen).
    exists (b :: bs), tr2. repeat split; [by constructor | by rewrite <- Hlen].
Qed.

(** ** Label scoring: the degenerate sentence and the aggregation mode *)

Section ComputeRougesFacts.
Variable rouge_get_scores : string → string → result (gmap string (gmap string Q)).
Variable aggregate_f : list Q → result Q.
Variable references : list string.
Variable is_test : bool.

Lemma score_reference_test_run sentence reference tr :
  ∃ d, score_reference_test rouge_get_scores sentence reference tr =
         (Ok d, tr ++ [RougeCall sentence reference]).
Proof. unfold score_reference_test, rouge_call. unfold_M. eauto. Qed.

Lemma score_reference_train_run sentence reference tr :
  ∃ x, score_reference_train rouge_get_scores sentence reference tr =
         (Ok x, tr ++ [RougeCall sentence reference]).
Proof. unfold score_reference_train, rouge_call. unfold_M. eauto. Qed.

(** A degenerate sentence is answered at once, with the trace untouched. *)
Lemma score_sentence_degenerate sentence tr :
  degenerate sentence = true →
  score_sentence rouge_get_scores aggregate_f references is_test sentence tr =
    (Ok (zero_value is_test), tr).
Proof. intros Hdeg. unfold score_sentence. by rewrite Hdeg. Qed.

(** The engine is only ever called on the sentence being scored, and
    only when that sentence is not degenerate. *)
Lemma score_sentence_events sentence tr r tr' :
  score_sentence rouge_get_scores aggregate_f references is_test sentence tr = (r, tr') →
  ∃ calls, tr' = tr ++ calls ∧
    Forall (λ e, degenerate sentence = false ∧
                 ∃ reference, e = RougeCall sentence reference) calls.
Proof.
  unfold score_sentence. destruct (degenerate sentence) eqn:Hdeg.
  { intros [= <- <-]. exists []. by rewrite app_nil_r. }
  assert (∀ B (f : string → M B),
            (∀ reference tr0, ∃ b, f reference tr0 = (Ok b, tr0 ++ [RougeCall sentence reference])) →
            ∀ r0 tr0, for_each f references tr = (r0, tr0) →
            ∃ calls, tr0 = tr ++ calls ∧
              Forall (λ e, false = false ∧ ∃ reference, e = RougeCall sentence reference) calls)
    as Hrefs.
  { intros B f Hf r0 tr0 Hrun.
    destruct (for_each_events f (λ reference e, e = RougeCall sentence reference)
                references) with (tr := tr) (r := r0) (tr' := tr0)
      as (calls & -> & Hcalls); [|done|].
    - intros a tr1 r1 tr1' Ha. destruct (Hf a tr1) as [b Hb].
      rewrite Hb in Ha. injection Ha as <- <-. exists [RougeCall sentence a].
      split; [done | by repeat constructor].
    - exists calls. split; [done|]. eapply Forall_impl; [done|].
      intros e (a & _ & ->). eauto. }
  destruct is_test; unfold_M.
  - destruct (for_each (score_reference_test rouge_get_scores sentence) references tr)
      as [r0 tr0] eqn:Hrun.
    destruct (Hrefs _ _ (score_reference_test_run sentence) _ _ Hrun) as (calls & -> & Hcalls).
    intros Hres. exists calls. split; [|done].
    destruct r0 as [tmp|e]; [|by injection Hres as <- <-].
    destruct (aggregate_test_scores tmp); by injection Hres as <- <-.
  - destruct (for_each (score_reference_train rouge_get_scores sentence) references tr)
      as [r0 tr0] eqn:Hrun.
    destruct (Hrefs _ _ (score_reference_train_run sentence) _ _ Hrun) as (calls & -> & Hcalls).
    intros Hres. exists calls. split; [|done].
    destruct r0 as [tmp|e]; [|by injection Hres as <- <-].
    destruct (aggregate_f tmp); by injection Hres as <- <-.
Qed.
End ComputeRougesFacts.

Lemma select_aggregate_valid aggregation :
  aggregation ∈ valid_aggregations → ∃ f, select_aggregate aggregation = Ok f.
Proof.
  unfold valid_aggregations, select_aggregate.
  intros Hin. repeat (apply elem_of_cons in Hin as [->|Hin]); simpl; eauto.
  by apply elem_of_nil in Hin.
Qed.

(** C4. Under a recognised aggregation mode: a list of degenerate
    sentences (blank, or without an alphabetic character) is answered with
    one zero per sentence ([0.0] in train mode, the all-zero dictionary in
    test mode) and no call of the ROUGE engine; in any list, whenever the
    function returns, the entry of each degenerate sentence is that zero;
    and whether it returns or raises, the engine has been called on no
    degenerate sentence. *)
Theorem compute_rouges_short_circuit
    (rouge_get_scores : string → string → result (gmap string (gmap string Q)))
    (sentences references : list string) (aggregation : string)
    (is_test : bool) (tr : trace) :
  aggregation ∈ valid_aggregations →
  (Forall (λ s, degenerate s = true) sentences →
     compute_rouges rouge_get_scores sentences references aggregation is_test tr =
       (Ok (replicate (length sentences) (zero_value is_test)), tr)) ∧
  (∀ results tr',
     compute_rouges rouge_get_scores sentences references aggregation is_test tr =
       (Ok results, tr') →
     length results = length sentences ∧
     ∀ i s, sentences !! i = Some s → degenerate s = true →
       results !! i = Some (zero_value is_test)) ∧
  (∀ r tr',
     compute_rouges rouge_get_scores sentences references aggregation is_test tr = (r, tr') →
     ∃ calls, tr' = tr ++ calls ∧
       ∀ candidate reference, RougeCall candidate reference ∈ calls →
         degenerate candidate = false).
Proof.
  intros Hvalid. destruct (select_aggregate_valid aggregation Hvalid) as [f Hf].
  unfold compute_rouges. unfold_M. rewrite Hf.
  split; [|split].
  - intros Hall. clear Hf. revert tr.
    induction Hall as [|s rest Hs Hrest IH]; intros tr; simpl; [done|].
    unfold_M. rewrite score_sentence_degenerate by done. by rewrite IH.
  - intros results tr' Hrun. apply for_each_results in Hrun.
    split; [symmetry; by eapply Forall2_length|].
    intros i s Hi Hdeg.
    destruct (Forall2_lookup_l _ _ _ _ _ Hrun Hi) as (b & Hb & tr1 & tr2 & Hsb).
    rewrite score_sentence_degenerate in Hsb by done. by injection Hsb as <- _.
  - intros r tr' Hrun.
    eapply for_each_events in Hrun as (calls & -> & Hcalls).
    2:{ intros a tr1 r1 tr1' Ha. eapply score_sentence_events, Ha. }
    exists calls. split; [done|].
    intros candidate reference Hin. rewrite Forall_forall in Hcalls.
    destruct (Hcalls _ Hin) as (a & _ & Hdeg & ref & Heq).
    by injection Heq as -> _.
Qed.

Lemma compute_rouges_short_circuit_witness :
  compute_rouges (λ _ _, Err RuntimeError) [""; "123"; "  "] ["x"] "max" false [] =
    (Ok [VFloat 0%Q; VFloat 0%Q; VFloat 0%Q], []).
Proof.
  apply (proj1 (compute_rouges_short_circuit (λ _ _, Err RuntimeError)
                  [""; "123"; "  "] ["x"] "max" false []
                  (list_elem_of_here "max" ["average"; "harmonic"]))).
  repeat constructor.
Defined.

Lemma aggregate_loop_errors scores m b e :
  aggregate_loop scores m b = Err e → is_invalid_aggregation e = false.
Proof.
  revert m b. induction scores as [|d rest IH]; intros m b; simpl; [done|].
  unfold leaf, getitem. unfold mbind, result_bind.
  destruct (d !! "rouge-2") as [inner|]; [|by intros [= <-]].
  destruct (inner !! "f") as [x|]; [|by intros [= <-]].
  destruct (Qle_bool m x); apply IH.
Qed.

Lemma reciprocal_sum_errors x acc e :
  reciprocal_sum x acc = Err e → e = StatisticsError.
Proof.
  revert acc. induction x as [|v rest IH]; intros acc; simpl; [done|].
  destruct (Qle_bool 0 v); [|by intros [= <-]].
  destruct (Qle_bool v 0); [done | apply IH].
Qed.

Lemma select_aggregate_errors aggregation f x e :
  select_aggregate aggregation = Ok f → f x = Err e → is_invalid_aggregation e = false.
Proof.
  unfold select_aggregate.
  destruct (decide (aggregation = "max")); [intros [= <-]|].
  { destruct x; simpl; [by intros [= <-] | done]. }
  destruct (decide (aggregation = "average")); [intros [= <-]|].
  { destruct x; simpl; [by intros [= <-] | done]. }
  destruct (decide (aggregation = "harmonic")); [intros [= <-]|done].
  unfold harmonic_mean. destruct x as [|v [|w rest]]; [by intros [= <-]| |].
  - destruct (Qle_bool 0 v); [done | by intros [= <-]].
  - destruct (reciprocal_sum (v :: w :: rest) 0) as [[total|]|err] eqn:Hsum; try done.
    apply reciprocal_sum_errors in Hsum as ->. by intros [= <-].
Qed.

Lemma score_sentence_errors rouge_get_scores aggregation f references is_test s tr e tr' :
  select_aggregate aggregation = Ok f →
  score_sentence rouge_get_scores f references is_test s tr = (Err e, tr') →
  is_invalid_aggregation e = false.
Proof.
  intros Hf. unfold score_sentence. destruct (degenerate s); [done|].
  destruct is_test; unfold_M.
  - destruct (for_each _ references tr) as [[tmp|err] tr0] eqn:Hrun.
    + destruct (aggregate_test_scores tmp) eqn:Hagg; [done|].
      intros [= <- <-]. by eapply aggregate_loop_errors.
    + intros [= <- <-].
      eapply (for_each_errors _ (λ e, is_invalid_aggregation e = false)); [|exact Hrun].
      intros a tr1 e1 tr1'. unfold score_reference_test, rouge_call. by unfold_M.
  - destruct (for_each _ references tr) as [[tmp|err] tr0] eqn:Hrun.
    + destruct (f tmp) eqn:Hagg; [done|].
      intros [= <- <-]. by eapply select_aggregate_errors.
    + intros [= <- <-].
      eapply (for_each_errors _ (λ e, is_invalid_aggregation e = false)); [|exact Hrun].
      intros a tr1 e1 tr1'. unfold score_reference_train, rouge_call. by unfold_M.
Qed.

(** C5 as stated fails for [compute_similarities]: called with an
    unrecognised identifier and the default [similarity_model=None] it
    raises [AttributeError] at the first [encode], not the [ValueError]. *)
Lemma compute_similarities_value_error_counterexample :
  ¬ (∀ (T : Torch) (similarity_model : option sentence_encoder)
       (sentences references : list string) (aggregation : string) (tr : trace),
       aggregation ∉ valid_aggregations →
       ∃ tr',
         compute_similarities sentences references similarity_model aggregation tr =
           (Err (ValueError ("Invalid aggregation parameter: " +:+ aggregation)), tr')).
Proof.
  intros Hclaim.
  destruct (Hclaim list_torch None ["a sentence"] ["x"] "median" []) as [tr' Hrun].
  - unfold valid_aggregations. intros Hin.
    repeat (apply elem_of_cons in Hin as [Hin|Hin]; [discriminate Hin|]).
    by apply elem_of_nil in Hin.
  - vm_compute in Hrun. discriminate Hrun.
Qed.

(** C5, amended. An aggregation identifier other than max, average and
    harmonic makes [compute_rouges] raise the [ValueError] "Invalid
    aggregation parameter: ..." before it has called anything.
    [compute_similarities] tests the identifier only after it has encoded
    the sentences and the references and computed their cosine scores:
    with no similarity model it raises [AttributeError] without a call;
    when an [encode] or [cos_sim] raises, that error comes out; and only
    when all three succeed the [ValueError] comes out, after both calls of
    the encoder. It never returns. With one of the three identifiers no
    error of [compute_rouges] is that [ValueError], and none of
    [compute_similarities] is unless the encoder or [cos_sim] raised
    it. *)
Theorem invalid_aggregation_errors `{Torch}
    (rouge_get_scores : string → string → result (gmap string (gmap string Q)))
    (similarity_model : option sentence_encoder)
    (sentences references : list string) (aggregation : string)
    (is_test : bool) (tr : trace) :
  (aggregation ∉ valid_aggregations →
     compute_rouges rouge_get_scores sentences references aggregation is_test tr =
       (Err (ValueError ("Invalid aggregation parameter: " +:+ aggregation)), tr) ∧
     compute_similarities sentences references similarity_model aggregation tr =
       match similarity_model with
       | None => (Err (AttributeError "encode"), tr)
       | Some model =>
           match model sentences with
           | Err e => (Err e, tr ++ [EncodeCall sentences])
           | Ok embeddings1 =>
               (match model references with
                | Err e => Err e
                | Ok embeddings2 =>
                    match cos_sim embeddings1 embeddings2 with
                    | Err e => Err e
                    | Ok _ =>
                        Err (ValueError ("Invalid aggregation parameter: " +:+ aggregation))
                    end
                end, tr ++ [EncodeCall sentences; EncodeCall references])
           end
       end) ∧
  (aggregation ∈ valid_aggregations →
     (∀ e tr',
        compute_rouges rouge_get_scores sentences references aggregation is_test tr =
          (Err e, tr') → is_invalid_aggregation e = false) ∧
     (∀ e tr',
        (∀ model texts e0, similarity_model = Some model → model texts = Err e0 →
                           is_invalid_aggregation e0 = false) →
        (∀ a b e0, cos_sim a b = Err e0 → is_invalid_aggregation e0 = false) →
        compute_similarities sentences references similarity_model aggregation tr =
          (Err e, tr') → is_invalid_aggregation e = false)).
Proof.
  split.
  - intros Hnot. unfold valid_aggregations in Hnot.
    apply not_elem_of_cons in Hnot as [Hmax Hnot].
    apply not_elem_of_cons in Hnot as [Havg Hnot].
    apply not_elem_of_cons in Hnot as [Hhar _].
    split.
    + unfold compute_rouges, select_aggregate. unfold_M.
      by rewrite !decide_False by done.
    + unfold compute_similarities, call_encode. unfold_M.
      destruct similarity_model as [model|]; [|done].
      destruct (model sentences) as [embeddings1|e1]; [|done].
      destruct (model references) as [embeddings2|e2]; [|by rewrite <- app_assoc].
      rewrite <- app_assoc.
      destruct (cos_sim embeddings1 embeddings2) as [cosine_scores|e3]; [|done].
      by rewrite !decide_False by done.
  - intros Hvalid. split.
    + destruct (select_aggregate_valid aggregation Hvalid) as [f Hf].
      unfold compute_rouges. unfold_M. rewrite Hf.
      apply for_each_errors. intros a tr1 e tr1'. by apply (score_sentence_errors _ aggregation).
    + intros e tr' Hmodel Hcos.
      unfold compute_similarities, call_encode. unfold_M.
      destruct similarity_model as [model|]; [|by intros [= <- <-]].
      specialize (Hmodel model).
      destruct (model sentences) as [embeddings1|e1] eqn:H1;
        [|intros [= <- <-]; by eapply Hmodel].
      destruct (model references) as [embeddings2|e2] eqn:H2;
        [|intros [= <- <-]; by eapply Hmodel].
      destruct (cos_sim embeddings1 embeddings2) as [cosine_scores|e3] eqn:H3;
        [|intros [= <- <-]; by eapply Hcos].
      unfold valid_aggregations in Hvalid.
      repeat (apply elem_of_cons in Hvalid as [->|Hvalid]);
        [| | |by apply elem_of_nil in Hvalid]; simpl.
      * destruct (torch_max_dim1 _); [done | by intros [= <- <-]].
      * done.
      * done.
Qed.

Lemma invalid_aggregation_errors_witness :
  (compute_rouges (λ _ _, Ok zero_scores) ["a sentence"] [] "median" true [] =
     (Err (ValueError "Invalid aggregation parameter: median"), []) ∧
   compute_similarities (H := list_torch) ["a sentence"] []
     (Some (list_encoder (λ _, [1%Q]))) "median" [] =
     (Err RuntimeError, [EncodeCall ["a sentence"]; EncodeCall []])) ∧
  (∀ e tr',
     compute_similarities (H := list_torch) ["a sentence"] ["x"]
       (Some (list_encoder (λ _, [1%Q]))) "max" [] = (Err e, tr') →
     is_invalid_aggregation e = false).
Proof.
  split.
  - apply (proj1 (invalid_aggregation_errors (H := list_torch)
                    (λ _ _, Ok zero_scores) (Some (list_encoder (λ _, [1%Q])))
                    ["a sentence"] [] "median" true [])).
    unfold valid_aggregations. intros Hin.
    repeat (apply elem_of_cons in Hin as [Hin|Hin]; [discriminate Hin|]).
    by apply elem_of_nil in Hin.
  - intros e tr'.
    apply (proj2 (invalid_aggregation_errors (H := list_torch)
                    (λ _ _, Ok zero_scores) (Some (list_encoder (λ _, [1%Q])))
                    ["a sentence"] ["x"] "max" true [])).
    + apply list_elem_of_here.
    + intros model texts e0 [= <-]. discriminate.
    + intros a b e0. simpl. destruct (same_width _ _); [discriminate|].
      by intros [= <-].
Defined.

(** ** Cleaning: strings *)

Lemma append_cons c (a b : string) : String c a +:+ b = String c (a +:+ b).
Proof. reflexivity. Qed.

Lemma append_assoc (a b c : string) : (a +:+ b) +:+ c = a +:+ (b +:+ c).
Proof.
  induction a as [|x a IH]; [done|]. by rewrite !append_cons, IH.
Qed.

Lemma isspace_not_alpha c : isspace c = true → isalpha c = false.
Proof.
  unfold isspace, isalpha, between.
  rewrite orb_true_iff, !andb_true_iff, !Nat.leb_le.
  intros Hspace. apply orb_false_iff.
  rewrite !andb_false_iff, !Nat.leb_gt. lia.
Qed.

Lemma any_isalpha_lstrip s : any isalpha (lstrip s) = any isalpha s.
Proof.
  induction s as [|c s IH]; simpl; [done|].
  destruct (isspace c) eqn:Hc; [|done].
  by rewrite (isspace_not_alpha c Hc).
Qed.

Lemma any_isalpha_rstrip s : any isalpha (rstrip s) = any isalpha s.
Proof.
  induction s as [|c s IH]; simpl; [done|].
  destruct (rstrip s) as [|c' r] eqn:Hr.
  - simpl in IH. rewrite <- IH. destruct (isspace c) eqn:Hc; simpl.
    + by rewrite (isspace_not_alpha c Hc).
    + by rewrite orb_false_r.
  - simpl in *. by rewrite IH.
Qed.

Lemma any_isalpha_remove_newline s :
  any isalpha (remove_char newline s) = any isalpha s.
Proof.
  induction s as [|c s IH]; simpl; [done|].
  destruct (decide (c = newline)) as [->|]; simpl; by rewrite IH.
Qed.

Lemma any_isalpha_clean h : any isalpha (clean_highlight h) = any isalpha h.
Proof.
  unfold clean_highlight, strip.
  by rewrite any_isalpha_rstrip, any_isalpha_lstrip, any_isalpha_remove_newline.
Qed.

Lemma any_truthy p s : any p s = true → truthy s = true.
Proof. by destruct s. Qed.

Lemma has_newline_lstrip s : has_newline s = false → has_newline (lstrip s) = false.
Proof.
  unfold has_newline. induction s as [|c s IH]; simpl; [done|].
  intros [Hc Hs]%orb_false_iff. destruct (isspace c); [by apply IH|].
  simpl. by rewrite Hc, Hs.
Qed.

Lemma has_newline_rstrip s : has_newline s = false → has_newline (rstrip s) = false.
Proof.
  unfold has_newline. induction s as [|c s IH]; simpl; [done|].
  intros [Hc Hs]%orb_false_iff. specialize (IH Hs).
  destruct (rstrip s) as [|c' r].
  - destruct (isspace c); simpl; [done | by rewrite Hc].
  - simpl in *. by rewrite Hc, IH.
Qed.

Lemma has_newline_remove s : has_newline (remove_char newline s) = false.
Proof.
  unfold has_newline. induction s as [|c s IH]; simpl; [done|].
  destruct (decide (c = newline)); simpl; [done|].
  by rewrite bool_decide_eq_false_2, IH.
Qed.

Lemma has_newline_clean h : has_newline (clean_highlight h) = false.
Proof.
  unfold clean_highlight, strip.
  apply has_newline_rstrip, has_newline_lstrip, has_newline_remove.
Qed.

Lemma split_char_no_sep h : has_newline h = false → split_char newline h = [h].
Proof.
  unfold has_newline. induction h as [|c h IH]; simpl; [done|].
  intros [Hc Hh]%orb_false_iff. apply bool_decide_eq_false in Hc.
  rewrite decide_False by done. by rewrite IH.
Qed.

Lemma split_char_sep h rest :
  has_newline h = false →
  split_char newline (h +:+ NL +:+ rest) = h :: split_char newline rest.
Proof.
  unfold has_newline. induction h as [|c h IH]; simpl.
  - done.
  - intros [Hc Hh]%orb_false_iff. apply bool_decide_eq_false in Hc.
    rewrite decide_False by done. by rewrite IH.
Qed.

(** Splitting on newlines undoes the joining of newline-free pieces. *)
Lemma split_char_join hs :
  hs ≠ [] → Forall (λ h, has_newline h = false) hs →
  split_char newline (join NL hs) = hs.
Proof.
  induction hs as [|h rest IH]; [done|]. intros _ Hall.
  apply Forall_cons in Hall as [Hh Hrest].
  destruct rest as [|h' rest'].
  - simpl. by apply split_char_no_sep.
  - change (join NL (h :: h' :: rest')) with (h +:+ NL +:+ join NL (h' :: rest')).
    rewrite split_char_sep by done. by rewrite IH.
Qed.

Lemma truthy_join sep h rest : truthy h = true → truthy (join sep (h :: rest)) = true.
Proof. destruct h; [done|]. by destruct rest. Qed.

(** Appending one more piece the way the highlight loop does. *)
Lemma join_snoc sep l x :
  Forall (λ h, truthy h = true) l →
  join sep (l ++ [x]) =
  (if truthy (join sep l) then join sep l +:+ sep else join sep l) +:+ x.
Proof.
  induction l as [|a l IH]; [done|]. intros Hall.
  apply Forall_cons in Hall as [Ha Hl].
  rewrite (truthy_join sep a l Ha).
  destruct l as [|b l'].
  - simpl. by rewrite append_assoc.
  - change (join sep ((a :: b :: l') ++ [x]))
      with (a +:+ sep +:+ join sep ((b :: l') ++ [x])).
    rewrite (IH Hl). apply Forall_cons in Hl as [Hb _].
    rewrite (truthy_join sep b l' Hb).
    change (join sep (a :: b :: l')) with (a +:+ sep +:+ join sep (b :: l')).
    by rewrite !append_assoc.
Qed.

(** ** Cleaning: the dataset loop *)

Lemma keep_highlight_inv text :
  keep_highlight text = true →
  3 < length (split_char " " text) ∧ any isalpha text = true.
Proof.
  unfold keep_highlight. intros [Hlen Halpha]%andb_true_iff.
  by apply Nat.ltb_lt in Hlen.
Qed.

Lemma clean_highlight_truthy text :
  keep_highlight text = true → truthy (clean_highlight text) = true.
Proof.
  intros [_ Halpha]%keep_highlight_inv.
  apply (any_truthy isalpha). by rewrite any_isalpha_clean.
Qed.

(** The highlight loop joins the cleaned texts of the sentences that pass
    the test, and counts them. *)
Lemma highlight_loop_spec sents kept0 :
  Forall (λ t, keep_highlight t = true) kept0 →
  highlight_loop sents (join NL (map clean_highlight kept0)) (length kept0) =
    (join NL (map clean_highlight (kept0 ++ List.filter keep_highlight sents)),
     length (kept0 ++ List.filter keep_highlight sents)).
Proof.
  revert kept0. induction sents as [|t rest IH]; intros kept0 Hkept; simpl.
  - by rewrite app_nil_r.
  - destruct (keep_highlight t) eqn:Ht.
    + rewrite <- join_snoc.
      2:{ apply Forall_map. eapply Forall_impl; [done|].
          intros h Hh. by apply clean_highlight_truthy. }
      specialize (IH (kept0 ++ [t])).
      rewrite map_app, length_app, Nat.add_1_r in IH. simpl in IH.
      rewrite IH; [by rewrite <- app_assoc|].
      apply Forall_app. split; [done | by repeat constructor].
    + by apply IH.
Qed.

Section CleanDatasetFacts.
Variable nlp_sents : string → list string.
Variable shuffle : nat → list data_point → list data_point.

(** What an accepted record owes to the point it was cleaned from. *)
Lemma clean_point_spec dp r :
  clean_point nlp_sents dp = Some r →
  let kept := List.filter keep_highlight (nlp_sents (highlights dp)) in
  split_char newline (highlights r) = map clean_highlight kept ∧
  (3 ≤ length kept ≤ 5)%nat ∧
  (300 ≤ len (article r))%nat.
Proof.
  unfold clean_point.
  pose proof (highlight_loop_spec (nlp_sents (highlights dp)) [] (Forall_nil_2 _)) as Hloop.
  simpl in Hloop. rewrite Hloop.
  set (kept := List.filter keep_highlight (nlp_sents (highlights dp))).
  destruct (Nat.leb 3 (length kept) && Nat.leb (length kept) 5) eqn:Hcount; [|done].
  apply andb_true_iff in Hcount as [H3 H5].
  apply Nat.leb_le in H3, H5.
  destruct (Nat.ltb (len _) 300) eqn:Hlen; [done|].
  apply Nat.ltb_ge in Hlen. intros [= <-]. simpl.
  split; [|by split].
  apply split_char_join.
  - destruct kept; [simpl in H3; lia | done].
  - apply Forall_map, Forall_forall. intros h _. apply has_newline_clean.
Qed.

(** The loop collects the accepted records in order, stops at
    [num_samples], and fails when the source ends before that. *)
Lemma clean_loop_spec rest cleaned_ds num_samples :
  (length cleaned_ds ≤ num_samples)%nat →
  clean_loop nlp_sents rest cleaned_ds num_samples =
    if Nat.ltb (length (cleaned_ds ++ omap (clean_point nlp_sents) rest)) num_samples
    then Err IndexError
    else Ok (take num_samples (cleaned_ds ++ omap (clean_point nlp_sents) rest)).
Proof.
  revert cleaned_ds. induction rest as [|dp rest IH]; intros cleaned_ds Hle.
  - simpl. rewrite app_nil_r.
    destruct (Nat.ltb (length cleaned_ds) num_samples) eqn:Hlt; [done|].
    by rewrite take_ge.
  - cbn [clean_loop].
    destruct (Nat.ltb (length cleaned_ds) num_samples) eqn:Hlt.
    + apply Nat.ltb_lt in Hlt. simpl.
      destruct (clean_point nlp_sents dp) as [r|]; [|by apply IH].
      rewrite IH by (rewrite length_app; simpl; lia).
      by rewrite <- app_assoc.
    + apply Nat.ltb_ge in Hlt.
      assert (length cleaned_ds = num_samples) as Hn by lia.
      rewrite (proj2 (Nat.ltb_ge _ _)) by (rewrite length_app; lia).
      by rewrite <- Hn, take_app_length.
Qed.
End CleanDatasetFacts.

(** C7 as stated fails: the cleaner can return a record one of whose
    highlights has three words. The sentence text "Go home now " followed
    by a newline passes the test (four pieces between single spaces, the
    last one the newline) and is stored, newline removed and stripped, as
    "Go home now". *)
Lemma clean_dataset_words_counterexample :
  ¬ (∀ (nlp_sents : string → list string)
       (shuffle : nat → list data_point → list data_point)
       (dataset : list data_point) (num_samples seed : nat)
       (records : list data_point),
       clean_dataset nlp_sents shuffle dataset num_samples seed = Ok records →
       length records = num_samples ∧
       Forall (λ r, meets_thresholds r = true) records).
Proof.
  intros Hclaim.
  destruct (Hclaim bar_sents (λ _ d, d) [fox_point] 1 42 [fox_cleaned]) as [_ Hall].
  - vm_compute. reflexivity.
  - apply Forall_cons in Hall as [Hfox _]. vm_compute in Hfox. discriminate Hfox.
Qed.

(** C7, amended. [clean_dataset] returns the first [num_samples] accepted
    records of the shuffled source, in order, and raises [IndexError] when
    the source holds fewer. Every record returned comes from a source
    point whose highlight sentences passing the test (more than three
    pieces between single spaces in the sentence text as split, and an
    alphabetic character) number three to five; its highlights are those
    sentences with newlines removed and stripped, each still with an
    alphabetic character; and its article has at least 300 characters. *)
Theorem clean_dataset_thresholds
    (nlp_sents : string → list string)
    (shuffle : nat → list data_point → list data_point)
    (dataset : list data_point) (num_samples seed : nat) :
  let accepted := omap (clean_point nlp_sents) (shuffle seed dataset) in
  clean_dataset nlp_sents shuffle dataset num_samples seed =
    (if Nat.ltb (length accepted) num_samples then Err IndexError
     else Ok (take num_samples accepted)) ∧
  ∀ records,
    clean_dataset nlp_sents shuffle dataset num_samples seed = Ok records →
    length records = num_samples ∧
    Forall (λ r, ∃ dp kept,
      dp ∈ shuffle seed dataset ∧
      kept = List.filter keep_highlight (nlp_sents (highlights dp)) ∧
      split_char newline (highlights r) = map clean_highlight kept ∧
      (3 ≤ length kept ≤ 5)%nat ∧
      Forall (λ t, 3 < length (split_char " " t) ∧ any isalpha t = true) kept ∧
      Forall (λ h, any isalpha h = true ∧ has_newline h = false)
        (split_char newline (highlights r)) ∧
      (300 ≤ len (article r))%nat) records.
Proof.
  intros accepted.
  assert (clean_dataset nlp_sents shuffle dataset num_samples seed =
            (if Nat.ltb (length accepted) num_samples then Err IndexError
             else Ok (take num_samples accepted))) as Hrun.
  { unfold clean_dataset. rewrite clean_loop_spec by (simpl; lia). done. }
  split; [done|].
  intros records Hok. rewrite Hrun in Hok.
  destruct (Nat.ltb (length accepted) num_samples) eqn:Hlt; [done|].
  apply Nat.ltb_ge in Hlt. injection Hok as <-.
  split; [rewrite length_take; lia|].
  apply Forall_forall. intros r Hr.
  apply elem_of_take in Hr as (i & Hr & _).
  apply list_elem_of_lookup_2 in Hr.
  apply list_elem_of_omap in Hr as (dp & Hdp & Hclean).
  destruct (clean_point_spec nlp_sents dp r Hclean) as (Hsplit & Hcount & Hlen).
  exists dp, (List.filter keep_highlight (nlp_sents (highlights dp))).
  repeat split; try done; try lia.
  - apply Forall_forall. intros t Ht.
    apply list_elem_of_In, filter_In in Ht as [_ Ht]. by apply keep_highlight_inv.
  - rewrite Hsplit. apply Forall_map, Forall_forall. intros t Ht.
    apply list_elem_of_In, filter_In in Ht as [_ Ht].
    apply keep_highlight_inv in Ht as [_ Ht].
    split; [by rewrite any_isalpha_clean | apply has_newline_clean].
Qed.

Lemma clean_dataset_thresholds_witness :
  length [fox_cleaned] = 1 ∧
  Forall (λ r, ∃ dp kept,
    dp ∈ [fox_point] ∧
    kept = List.filter keep_highlight (bar_sents (highlights dp)) ∧
    split_char newline (highlights r) = map clean_highlight kept ∧
    (3 ≤ length kept ≤ 5)%nat ∧
    Forall (λ t, 3 < length (split_char " " t) ∧ any isalpha t = true) kept ∧
    Forall (λ h, any isalpha h = true ∧ has_newline h = false)
      (split_char newline (highlights r)) ∧
    (300 ≤ len (article r))%nat) [fox_cleaned].
Proof.
  apply (proj2 (clean_dataset_thresholds bar_sents (λ _ d, d) [fox_point] 1 42)
           [fox_cleaned]).
  vm_compute. reflexivity.
Defined.

(** ** The evaluator *)

Lemma get_scores_trace sentences context model tr r tr' :
  get_scores sentences context model tr = (r, tr') →
  tr' = tr ++ [ModelCall sentences (replicate (length sentences) context)].
Proof.
  unfold get_scores. unfold_M.
  destruct (model _ _) as [x|scores]; [by intros [= <- <-]|].
  destruct (select sentences _); [|by intros [= <- <-]].
  destruct (select scores _); by intros [= <- <-].
Qed.

Lemma model_calls_app tr1 tr2 : model_calls (tr1 ++ tr2) = model_calls tr1 ++ model_calls tr2.
Proof. apply omap_app. Qed.

Lemma model_calls_labels calls :
  Forall (λ e, ∃ h gt, e = LabelCall h gt) calls → model_calls calls = [].
Proof.
  induction 1 as [|e calls (h & gt & ->) _ IH]; [done | exact IH].
Qed.

Section EvaluatorFacts.
Variable compute_labels : option label_scorer.
Variable model : relevance_model.
Variable num_highlight : nat.

Lemma evaluate_article_trace highlights_pred highlights_gt tr r tr' :
  evaluate_article compute_labels highlights_pred highlights_gt tr = (r, tr') →
  ∃ calls, tr' = tr ++ calls ∧ model_calls calls = [].
Proof.
  unfold evaluate_article. unfold_M.
  destruct (for_each _ highlights_pred tr) as [r0 tr0] eqn:Hrun.
  eapply (for_each_events _ (λ _ e, ∃ h gt, e = LabelCall h gt)) in Hrun
    as (calls & -> & Hcalls).
  - intros Hres. exists calls. split.
    + destruct r0 as [scored|e]; [|by injection Hres as <- <-].
      destruct (compute_avg_dict _); by injection Hres as <- <-.
    + apply model_calls_labels. eapply Forall_impl; [done|].
      by intros e (_ & _ & He).
  - intros h tr1 r1 tr1'. unfold call_compute_labels. unfold_M.
    destruct compute_labels as [f|].
    + intros [= <- <-]. exists [LabelCall h highlights_gt].
      split; [done|]. repeat constructor. eauto.
    + intros [= <- <-]. exists []. by rewrite app_nil_r.
Qed.

(** Closing a group calls the model once, on the sentences and the
    context of the open group, and appends one result. *)
Lemma close_group_ok st open_context highlights_gt tr st' tr' :
  close_group compute_labels model num_highlight st open_context highlights_gt tr
    = (Ok st', tr') →
  ∃ calls d x,
    tr' = tr ++ calls ∧
    model_calls calls =
      [ranking_call (open_context, current_article_sentences st)] ∧
    st' = mk_state (current_context st) (current_article_sentences st)
            (current_highlight st) (rouges st ++ [d]) (similarities st ++ [x]).
Proof.
  unfold close_group. unfold_M.
  destruct (get_scores _ _ _ tr) as [r0 tr0] eqn:Hrank.
  apply get_scores_trace in Hrank as ->.
  destruct r0 as [ranked|e]; [|done].
  destruct (evaluate_article _ _ _ _) as [r1 tr1] eqn:Hscore.
  apply evaluate_article_trace in Hscore as (calls & -> & Hcalls).
  destruct r1 as [scored|e]; [|done].
  intros [= <- <-].
  exists (ModelCall (current_article_sentences st)
            (replicate (length (current_article_sentences st)) open_context) :: calls),
    scored.1, scored.2.
  split; [by rewrite <- app_assoc|]. split; [|done].
  change (model_calls (?e :: ?l)) with (model_calls ([e] ++ l)).
  by rewrite model_calls_app, Hcalls.
Qed.

Lemma step_first st ex tr :
  current_context st = None →
  step compute_labels model num_highlight st ex tr =
    (Ok (mk_state (Some (context ex)) [sentence ex]
           (Some (split_char newline (example_highlights ex)))
           (rouges st) (similarities st)), tr).
Proof.
  intros Hctx. unfold step. unfold_M. rewrite Hctx.
  by rewrite decide_True.
Qed.

Lemma step_same st ex tr :
  current_context st = Some (context ex) →
  step compute_labels model num_highlight st ex tr =
    (Ok (mk_state (current_context st) (current_article_sentences st ++ [sentence ex])
           (current_highlight st) (rouges st) (similarities st)), tr).
Proof.
  intros Hctx. unfold step. unfold_M.
  destruct (decide (Some (context ex) ≠ current_context st)) as [Hne|_]; [|done].
  by destruct Hne.
Qed.

Lemma step_change st ex open_context tr :
  current_context st = Some open_context →
  context ex ≠ open_context →
  step compute_labels model num_highlight st ex tr =
    match close_group compute_labels model num_highlight st open_context
            (Some (split_char newline (example_highlights ex))) tr with
    | (Ok st', tr') =>
        (Ok (mk_state (Some (context ex)) [sentence ex]
               (Some (split_char newline (example_highlights ex)))
               (rouges st') (similarities st')), tr')
    | (Err e, tr') => (Err e, tr')
    end.
Proof.
  intros Hctx Hne. unfold step. unfold_M. rewrite Hctx.
  rewrite decide_True by congruence.
  by destruct (close_group _ _ _ _ _ _ _) as [[st'|e] tr'].
Qed.

Lemma evaluate_from_cons st ex rest tr :
  evaluate_from compute_labels model num_highlight st (ex :: rest) tr =
    match step compute_labels model num_highlight st ex tr with
    | (Ok st1, tr1) => evaluate_from compute_labels model num_highlight st1 rest tr1
    | (Err e, tr1) => (Err e, tr1)
    end.
Proof.
  unfold evaluate_from. simpl. unfold_M.
  by destruct (step _ _ _ _ _ _) as [[st1|e] tr1].
Qed.
End EvaluatorFacts.

(** *** Runs of contexts *)

Lemma open_then_head g runs : ∃ ss rs, open_then g runs = (g.1, ss) :: rs.
Proof.
  destruct g as [c ss0]. unfold open_then. destruct runs as [|[c' ss'] rs]; simpl; [eauto|].
  destruct (decide (c' = c)); eauto.
Qed.

Lemma open_then_other c ss ex rest :
  context ex ≠ c →
  open_then (c, ss) (context_runs (ex :: rest)) = (c, ss) :: context_runs (ex :: rest).
Proof.
  intros Hne. simpl.
  destruct (open_then_head (context ex, [sentence ex]) (context_runs rest))
    as (ss' & rs & ->).
  simpl. by rewrite decide_False.
Qed.

Lemma open_then_same c ss ex rest :
  context ex = c →
  open_then (c, ss) (context_runs (ex :: rest)) =
  open_then (c, ss ++ [sentence ex]) (context_runs rest).
Proof.
  intros <-. simpl. destruct (context_runs rest) as [|[c' ss'] rs]; simpl.
  - by rewrite decide_True.
  - destruct (decide (c' = context ex)) as [->|Hne]; simpl.
    + rewrite decide_True by done. by rewrite <- app_assoc.
    + by rewrite decide_True.
Qed.

(** The runs keep every row, in order, under its own context, and two
    neighbouring runs differ in context: they are the maximal runs. *)
Lemma context_runs_rows dataset :
  flat_map (λ g, map (λ s, (g.1, s)) g.2) (context_runs dataset) =
  map (λ ex, (context ex, sentence ex)) dataset.
Proof.
  induction dataset as [|ex rest IH]; [done|]. simpl. rewrite <- IH.
  destruct (context_runs rest) as [|[c ss] rs]; simpl; [done|].
  destruct (decide (c = context ex)) as [->|]; done.
Qed.

Lemma context_runs_maximal dataset i g1 g2 :
  context_runs dataset !! i = Some g1 →
  context_runs dataset !! S i = Some g2 →
  g1.1 ≠ g2.1 ∧ g1.2 ≠ [].
Proof.
  revert i g1 g2. induction dataset as [|ex rest IH]; intros i g1 g2; [done|].
  simpl. destruct (context_runs rest) as [|[c ss] rs] eqn:Hruns; simpl; [done|].
  destruct (decide (c = context ex)) as [->|Hne].
  - destruct i as [|i]; simpl.
    + intros [= <-] Hg2. simpl. split; [|done].
      destruct (IH 0 (context ex, ss) g2 eq_refl Hg2) as [? _]. done.
    + intros Hg1 Hg2. by apply (IH (S i)).
  - destruct i as [|i]; simpl.
    + intros [= <-] [= <-]. simpl. split; [congruence | done].
    + intros Hg1 Hg2. by apply (IH i).
Qed.

Section EvaluatorGroups.
Variable compute_labels : option label_scorer.
Variable model : relevance_model.
Variable num_highlight : nat.

(** From an open group, a successful evaluation ranks the runs of the
    remaining rows, the first of them joined to the open group when the
    contexts agree, and appends one result per run. *)
Lemma evaluate_from_groups rest :
  ∀ st c tr st' tr',
    current_context st = Some c →
    evaluate_from compute_labels model num_highlight st rest tr = (Ok st', tr') →
    ∃ calls,
      tr' = tr ++ calls ∧
      model_calls calls =
        map ranking_call
          (open_then (c, current_article_sentences st) (context_runs rest)) ∧
      length (rouges st') =
        length (rouges st) +
        length (open_then (c, current_article_sentences st) (context_runs rest)) ∧
      length (similarities st') =
        length (similarities st) +
        length (open_then (c, current_article_sentences st) (context_runs rest)).
Proof.
  induction rest as [|ex rest IH]; intros st c tr st' tr' Hctx Hrun.
  - unfold evaluate_from in Hrun. simpl in Hrun. unfold_M.
    unfold process_last in Hrun. rewrite Hctx in Hrun.
    apply close_group_ok in Hrun as (calls & d & x & -> & Hcalls & ->).
    exists calls. simpl. rewrite !length_app. simpl. done.
  - rewrite evaluate_from_cons in Hrun.
    destruct (decide (context ex = c)) as [Heq|Hne].
    + rewrite step_same in Hrun by congruence.
      eapply IH in Hrun as (calls & -> & Hcalls & Hr & Hs); [|done].
      simpl in Hcalls, Hr, Hs.
      exists calls. by rewrite open_then_same.
    + rewrite (step_change _ _ _ _ _ c) in Hrun by done.
      destruct (close_group _ _ _ _ _ _ _) as [[st1|e] tr1] eqn:Hclose; [|done].
      apply close_group_ok in Hclose as (calls1 & d & x & -> & Hcalls1 & ->).
      eapply IH in Hrun as (calls & -> & Hcalls & Hr & Hs); [|done].
      simpl in Hcalls, Hr, Hs. rewrite length_app in Hr, Hs. simpl in Hr, Hs.
      exists (calls1 ++ calls). rewrite open_then_other by done.
      change (open_then (context ex, [sentence ex]) (context_runs rest))
        with (context_runs (ex :: rest)) in *.
      generalize dependent (context_runs (ex :: rest)). intros runs Hcalls Hr Hs.
      split; [by rewrite app_assoc|].
      rewrite model_calls_app, Hcalls1, Hcalls.
      split; [done|]. simpl. lia.
Qed.

End EvaluatorGroups.

(** *** Groups that cannot be ranked *)

Lemma get_scores_answers_list sentences context model tr ranked tr' :
  get_scores sentences context model tr = (Ok ranked, tr') →
  answers_list model (context, sentences).
Proof.
  unfold get_scores, answers_list. unfold_M. simpl.
  destruct (model _ _) as [x|scores]; [done | eauto].
Qed.

Section EvaluatorRanked.
Variable compute_labels : option label_scorer.
Variable model : relevance_model.
Variable num_highlight : nat.

Lemma close_group_answers_list st open_context highlights_gt tr st' tr' :
  close_group compute_labels model num_highlight st open_context highlights_gt tr
    = (Ok st', tr') →
  answers_list model (open_context, current_article_sentences st) ∧
  ∃ d x, st' = mk_state (current_context st) (current_article_sentences st)
                 (current_highlight st) (rouges st ++ [d]) (similarities st ++ [x]).
Proof.
  intros Hclose. split.
  - revert Hclose. unfold close_group. unfold_M.
    destruct (get_scores _ _ _ tr) as [[ranked|e] tr0] eqn:Hrank; [|done].
    intros _. by eapply get_scores_answers_list.
  - apply close_group_ok in Hclose as (calls & d & x & _ & _ & ->). eauto.
Qed.

(** When the evaluation of the groups returns, the model has answered a
    list of scores on every run. *)
Lemma evaluate_from_answers_list rest :
  ∀ st c tr st' tr',
    current_context st = Some c →
    evaluate_from compute_labels model num_highlight st rest tr = (Ok st', tr') →
    Forall (answers_list model)
      (open_then (c, current_article_sentences st) (context_runs rest)).
Proof.
  induction rest as [|ex rest IH]; intros st c tr st' tr' Hctx Hrun.
  - unfold evaluate_from in Hrun. simpl in Hrun. unfold_M.
    unfold process_last in Hrun. rewrite Hctx in Hrun.
    apply close_group_answers_list in Hrun as [Hlist _]. by repeat constructor.
  - rewrite evaluate_from_cons in Hrun.
    destruct (decide (context ex = c)) as [Heq|Hne].
    + rewrite step_same in Hrun by congruence.
      eapply IH in Hrun; [|done]. simpl in Hrun. by rewrite open_then_same.
    + rewrite (step_change _ _ _ _ _ c) in Hrun by done.
      destruct (close_group _ _ _ _ _ _ _) as [[st1|e] tr1] eqn:Hclose; [|done].
      apply close_group_answers_list in Hclose as [Hlist (d & x & ->)].
      eapply IH in Hrun; [|done]. simpl in Hrun.
      rewrite open_then_other by done. by constructor.
Qed.

Lemma evaluate_groups_answers_list dataset st tr tr' :
  evaluate_groups compute_labels model num_highlight dataset tr = (Ok st, tr') →
  Forall (answers_list model) (context_runs dataset).
Proof.
  unfold evaluate_groups. destruct dataset as [|ex rest]; [by constructor|].
  rewrite evaluate_from_cons, step_first by done.
  intros Hrun. by eapply evaluate_from_answers_list in Hrun.
Qed.
End EvaluatorRanked.

(** C2 (failing inputs). On the rows of the articles A, A, B, B, B the
    program as it is, with [compute_labels] unbound, raises [NameError]
    when it closes the group of A, after one call of the relevance model:
    no group is emitted. With a label scorer bound, a stream whose first
    article has a single sentence raises [TypeError] when that group is
    closed. In general, whatever [compute_labels] is bound to and whatever
    [num_highlight] is: when some maximal run of identical contexts has
    exactly one sentence and the one-label classifier answers one logit
    for it, [evaluate_model] raises and emits nothing. *)
Theorem evaluate_model_emits_no_group :
  evaluate_model (imported_binding utils_namespace "compute_labels" zero_labels)
    (one_label later_classifier) 3 two_articles [] =
    (Err (NameError "compute_labels"), [ModelCall ["a1"; "a2"] ["A"; "A"]]) ∧
  evaluate_model (Some zero_labels) (one_label later_classifier) 3 lone_article [] =
    (Err TypeError, [ModelCall ["a1"] ["A"]]) ∧
  ∀ (compute_labels : option label_scorer) (classify : classifier)
    (num_highlight : nat) (dataset : list example) (tr : trace) (c s : string),
    (c, [s]) ∈ context_runs dataset →
    length (classify [s] [c]) = 1 →
    ∃ e tr',
      evaluate_model compute_labels (one_label classify) num_highlight dataset tr
        = (Err e, tr').
Proof.
  split; [vm_compute; reflexivity|]. split; [vm_compute; reflexivity|].
  intros compute_labels classify num_highlight dataset tr c s Hrun Hone.
  unfold evaluate_model. unfold_M.
  destruct (evaluate_groups _ _ _ dataset tr) as [[st|e] tr'] eqn:Hgroups; [|eauto].
  apply evaluate_groups_answers_list in Hgroups.
  rewrite Forall_forall in Hgroups. destruct (Hgroups _ Hrun) as [scores Hscores].
  unfold one_label in Hscores. simpl in Hscores.
  destruct (squeeze_tolist_float (classify [s] [c]) Hone) as [x Hx].
  congruence.
Qed.

Lemma evaluate_model_emits_no_group_witness :
  ∃ e tr',
    evaluate_model (Some zero_labels) (one_label later_classifier) 3 lone_article []
      = (Err e, tr').
Proof.
  apply (proj2 (proj2 evaluate_model_emits_no_group)
           (Some zero_labels) later_classifier 3 lone_article [] "A" "a1").
  - vm_compute. apply list_elem_of_here.
  - reflexivity.
Defined.

(** C1 (failing input). On the rows a1, a2 of article A (highlights hA)
    followed by b1, b2, b3 of article B (highlights hB), the group of A is
    closed when b1 is read, and its ranked sentences a2, a1 are scored
    against hB, the highlights of the row just read; hA is never used.
    Only the last group, closed at the end of the stream, is scored
    against its own highlights. *)
Theorem evaluate_model_scores_against_next_highlights :
  label_calls (evaluate_groups (Some zero_labels) later_first 3 two_articles []).2 =
    [("a2", Some ["hB"]); ("a1", Some ["hB"]);
     ("b3", Some ["hB"]); ("b2", Some ["hB"]); ("b1", Some ["hB"])].
Proof. vm_compute. reflexivity. Qed.

(** *** The unbound label scorer *)

Section UnboundLabels.
Variable model : relevance_model.
Variable num_highlight : nat.

Lemma evaluate_article_unbound highlights_pred highlights_gt tr :
  ∃ e, evaluate_article None highlights_pred highlights_gt tr = (Err e, tr).
Proof.
  unfold evaluate_article. destruct highlights_pred as [|h rest]; simpl; unfold_M.
  - exists ZeroDivisionError. reflexivity.
  - exists (NameError "compute_labels"). reflexivity.
Qed.

Lemma close_group_unbound st open_context highlights_gt tr :
  ∃ e tr', close_group None model num_highlight st open_context highlights_gt tr
             = (Err e, tr').
Proof.
  unfold close_group. unfold_M.
  destruct (get_scores _ _ _ tr) as [[ranked|e] tr0]; [|eauto].
  destruct (evaluate_article_unbound (take num_highlight ranked.1) highlights_gt tr0)
    as [e ->]. eauto.
Qed.

Lemma evaluate_from_unbound rest :
  ∀ st c tr, current_context st = Some c →
    ∃ e tr', evaluate_from None model num_highlight st rest tr = (Err e, tr').
Proof.
  induction rest as [|ex rest IH]; intros st c tr Hctx.
  - unfold evaluate_from. simpl. unfold_M. unfold process_last. rewrite Hctx.
    apply close_group_unbound.
  - rewrite evaluate_from_cons.
    destruct (decide (context ex = c)) as [Heq|Hne].
    + rewrite step_same by congruence. by eapply IH.
    + rewrite (step_change _ _ _ _ _ c) by done.
      destruct (close_group_unbound st c
                  (Some (split_char newline (example_highlights ex))) tr)
        as (e & tr' & ->). eauto.
Qed.
End UnboundLabels.

(** C10. [utils] binds no name [compute_labels]: the import on line 5 of
    [test.py] raises [ImportError], and the global name is unbound. With
    the name unbound every closing of a group raises, and so
    [evaluate_model] raises on every non-empty dataset, whatever the
    relevance model answers. *)
Theorem evaluate_model_unbound_compute_labels :
  from_import utils_namespace test_imports_from_utils = Err (ImportError "compute_labels") ∧
  (∀ scorer : label_scorer,
     imported_binding utils_namespace "compute_labels" scorer = None) ∧
  (∀ model num_highlight st open_context highlights_gt tr,
     ∃ e tr', close_group None model num_highlight st open_context highlights_gt tr
                = (Err e, tr')) ∧
  ∀ (scorer : label_scorer) (model : relevance_model) (num_highlight : nat)
    (dataset : list example) (tr : trace),
    dataset ≠ [] →
    ∃ e tr',
      evaluate_model (imported_binding utils_namespace "compute_labels" scorer)
        model num_highlight dataset tr = (Err e, tr').
Proof.
  split; [vm_compute; reflexivity|].
  assert (∀ scorer : label_scorer,
            imported_binding utils_namespace "compute_labels" scorer = None) as Hunbound.
  { intros scorer. unfold imported_binding.
    rewrite bool_decide_eq_false_2; [done|]. vm_compute.
    intros Hin. repeat (apply elem_of_cons in Hin as [Hin|Hin]; [discriminate Hin|]).
    by apply elem_of_nil in Hin. }
  split; [done|]. split; [apply close_group_unbound|].
  intros scorer model num_highlight dataset tr Hne. rewrite Hunbound.
  destruct dataset as [|ex rest]; [done|].
  unfold evaluate_model, evaluate_groups. unfold_M.
  rewrite evaluate_from_cons, step_first by done.
  edestruct (evaluate_from_unbound model num_highlight rest) as (e & tr' & ->); [done|].
  eauto.
Qed.

Lemma evaluate_model_unbound_compute_labels_witness :
  ∃ e tr',
    evaluate_model (imported_binding utils_namespace "compute_labels" zero_labels)
      later_first 3 two_articles [] = (Err e, tr').
Proof.
  apply (proj2 (proj2 (proj2 evaluate_model_unbound_compute_labels))
           zero_labels later_first 3 two_articles []).
  discriminate.
Defined.

(** * Further properties *)

(** ** Trigram blocking: the greedy rule *)

(** The loop on a list in two parts: the second part runs from the set
    the first part leaves behind. *)
Lemma trigram_loop_split pre post T :
  trigram_loop (pre ++ post) [] T =
  trigram_loop pre [] T ++
  trigram_loop post [] (T ∪ ⋃ (sentence_trigrams <$> trigram_loop pre [] T)).
Proof.
  revert T. induction pre as [|s pre IH]; intros T.
  - simpl. f_equal. by rewrite union_empty_r_L.
  - rewrite <- app_comm_cons, !trigram_loop_cons.
    destruct (decide (T ∩ sentence_trigrams s = ∅)); [|apply IH].
    rewrite IH. simpl. f_equal. f_equal. by rewrite (assoc_L (∪)).
Qed.

(** X1. Whether a sentence is kept depends only on the sentences kept
    before it: put after the sentences [pre], the sentence [s] is dropped
    exactly when it shares a trigram with a sentence kept from [pre], and
    is appended to what was kept otherwise. *)
Theorem trigram_blocking_next (pre : list string) (s : string) :
  ((∃ a, a ∈ trigram_blocking pre ∧
         sentence_trigrams a ∩ sentence_trigrams s ≠ ∅) ∧
   trigram_blocking (pre ++ [s]) = trigram_blocking pre)
  ∨ ((∀ a, a ∈ trigram_blocking pre →
           sentence_trigrams a ∩ sentence_trigrams s = ∅) ∧
     trigram_blocking (pre ++ [s]) = trigram_blocking pre ++ [s]).
Proof.
  unfold trigram_blocking. rewrite trigram_loop_split, trigram_loop_cons. simpl.
  set (out := trigram_loop pre [] ∅).
  destruct (decide ((∅ ∪ ⋃ (sentence_trigrams <$> out)) ∩ sentence_trigrams s = ∅))
    as [Hfree|Hshared].
  - right. split; [|done]. intros a Ha.
    assert (sentence_trigrams a ⊆ ⋃ (sentence_trigrams <$> out)) as Hsub.
    { intros t Ht. apply elem_of_union_list. exists (sentence_trigrams a).
      split; [by apply list_elem_of_fmap_2 | done]. }
    set_solver.
  - left. split; [|by rewrite app_nil_r].
    apply set_choose_L in Hshared as [t Ht].
    apply elem_of_intersection in Ht as [Ht Hs].
    apply elem_of_union in Ht as [Ht|Ht]; [set_solver|].
    apply elem_of_union_list in Ht as (X & HX & HtX).
    apply list_elem_of_fmap in HX as (a & -> & Ha).
    exists a. split; [done|]. set_solver.
Qed.

Lemma trigram_loop_fixed l T :
  trigram_loop (trigram_loop l [] T) [] T = trigram_loop l [] T.
Proof.
  revert T. induction l as [|s rest IH]; intros T; [done|].
  rewrite trigram_loop_cons. destruct (decide (T ∩ sentence_trigrams s = ∅)) as [Hs|Hs].
  - rewrite trigram_loop_cons, decide_True by done. by rewrite IH.
  - apply IH.
Qed.

(** X2. Filtering twice changes nothing: every sentence of an output is
    kept when the output is filtered again. *)
Theorem trigram_blocking_idempotent (sentences : list string) :
  trigram_blocking (trigram_blocking sentences) = trigram_blocking sentences.
Proof. apply trigram_loop_fixed. Qed.

(** ** The aggregation functions *)

Lemma max_from_spec a l :
  max_from a l ∈ a :: l ∧ ∀ y, y ∈ a :: l → (y <= max_from a l)%Q.
Proof.
  unfold max_from. revert a. induction l as [|b l IH]; intros a; simpl.
  - split; [by left|]. intros y ->%list_elem_of_singleton. apply Qle_refl.
  - destruct (Qle_bool b a) eqn:Hcmp.
    + apply Qle_bool_iff in Hcmp. destruct (IH a) as [Hin Hmax]. split.
      * apply elem_of_cons in Hin as [->|Hin]; [by left | by do 2 right].
      * intros y [->|[->|Hy]%elem_of_cons]%elem_of_cons.
        -- apply Hmax. by left.
        -- eapply Qle_trans; [exact Hcmp | apply Hmax; by left].
        -- apply Hmax. by right.
    + assert (a < b)%Q as Hlt.
      { apply Qnot_le_lt. intros Hle. apply Qle_bool_iff in Hle. congruence. }
      destruct (IH b) as [Hin Hmax]. split.
      * by right.
      * intros y [->|Hy]%elem_of_cons; [|by apply Hmax].
        eapply Qle_trans; [apply Qlt_le_weak, Hlt | apply Hmax; by left].
Qed.

Lemma fold_sum_replicate n v acc :
  (fold_left Qplus (replicate n v) acc == acc + inject_Z (Z.of_nat n) * v)%Q.
Proof.
  revert acc. induction n as [|n IH]; intros acc.
  - simpl. ring.
  - cbn [replicate fold_left]. rewrite IH, Nat2Z.inj_succ, <- Z.add_1_r, inject_Z_plus.
    ring.
Qed.

Lemma reciprocal_sum_replicate n v acc :
  (0 < v)%Q →
  ∃ total, reciprocal_sum (replicate n v) acc = Ok (Some total) ∧
           (total == acc + inject_Z (Z.of_nat n) * / v)%Q.
Proof.
  intros Hv. revert acc. induction n as [|n IH]; intros acc.
  - exists acc. split; [done|]. simpl. ring.
  - cbn [replicate reciprocal_sum].
    rewrite (proj2 (Qle_bool_iff 0 v)) by lra.
    destruct (Qle_bool v 0) eqn:Hle; [apply Qle_bool_iff in Hle; lra|].
    destruct (IH (acc + / v)%Q) as (total & -> & Htotal).
    exists total. split; [done|].
    rewrite Htotal, Nat2Z.inj_succ, <- Z.add_1_r, inject_Z_plus. ring.
Qed.

Lemma inject_nat_pos n : 0 < n → (0 < inject_Z (Z.of_nat n))%Q.
Proof.
  intros Hn. change 0%Q with (inject_Z 0). rewrite <- Zlt_Qlt. lia.
Qed.

(** X3. The aggregation laws. On [n > 0] copies of one value [v >= 0] the
    three recognised aggregation functions all answer [v]; on copies of a
    negative value the harmonic mean raises [StatisticsError]. *)
Theorem aggregation_of_identical_values
    (aggregation : string) (f : list Q → result Q) (n : nat) (v : Q) :
  select_aggregate aggregation = Ok f →
  0 < n →
  ((0 <= v)%Q → ∃ x, f (replicate n v) = Ok x ∧ (x == v)%Q) ∧
  ((v < 0)%Q → harmonic_mean (replicate n v) = Err StatisticsError).
Proof.
  intros Hsel Hn. destruct n as [|n]; [lia|]. clear Hn. split.
  - intros Hv. unfold select_aggregate in Hsel.
    destruct (decide (aggregation = "max")); [injection Hsel as <-|].
    { exists v. split; [|reflexivity]. cbn [replicate py_max]. f_equal.
      destruct (max_from_spec v (replicate n v)) as [Hin _].
      apply elem_of_cons in Hin as [Heq|Hin]; [exact Heq|].
      by apply elem_of_replicate in Hin as [? _]. }
    destruct (decide (aggregation = "average")); [injection Hsel as <-|].
    { rewrite true_div_ok by (rewrite length_replicate; lia).
      eexists. split; [done|]. unfold py_sum.
      rewrite fold_sum_replicate, length_replicate.
      pose proof (inject_nat_pos (S n) ltac:(lia)). field. lra. }
    destruct (decide (aggregation = "harmonic")); [injection Hsel as <-|done].
    destruct n as [|n].
    { exists v. simpl. rewrite (proj2 (Qle_bool_iff 0 v)) by done.
      split; [done | reflexivity]. }
    cbn [replicate harmonic_mean].
    change (v :: v :: replicate n v) with (replicate (S (S n)) v).
    destruct (Qle_bool v 0) eqn:Hzero.
    + apply Qle_bool_iff in Hzero. exists 0%Q. split; [|lra].
      cbn [replicate reciprocal_sum].
      rewrite (proj2 (Qle_bool_iff 0 v)) by done.
      by rewrite (proj2 (Qle_bool_iff v 0)) by done.
    + assert (0 < v)%Q as Hpos.
      { apply Qnot_le_lt. intros Hle. apply Qle_bool_iff in Hle. congruence. }
      destruct (reciprocal_sum_replicate (S (S n)) v 0 Hpos) as (total & -> & Htotal).
      eexists. split; [done|]. rewrite Htotal, length_replicate.
      pose proof (inject_nat_pos (S (S n)) ltac:(lia)). field. split; lra.
  - intros Hv. destruct n as [|n]; cbn [replicate harmonic_mean reciprocal_sum].
    + destruct (Qle_bool 0 v) eqn:Hle; [apply Qle_bool_iff in Hle; lra | done].
    + destruct (Qle_bool 0 v) eqn:Hle; [apply Qle_bool_iff in Hle; lra | done].
Qed.

Lemma aggregation_of_identical_values_witness :
  (∃ x, harmonic_mean (replicate 3 (1 # 2)%Q) = Ok x ∧ (x == 1 # 2)%Q).
Proof.
  apply (proj1 (aggregation_of_identical_values "harmonic" harmonic_mean 3 (1 # 2)%Q
                  eq_refl ltac:(lia))).
  discriminate.
Defined.

Lemma py_max_nonempty (x : list Q) :
  x ≠ [] → ∃ m, py_max x = Ok m ∧ m ∈ x ∧ ∀ y, y ∈ x → (y <= m)%Q.
Proof.
  intros Hne. destruct x as [|a l]; [done|].
  exists (max_from a l). split; [done|]. apply max_from_spec.
Qed.

(** ** Label scoring: calls, result types and recovered failures *)

Lemma for_each_total {A B} (f : A → M B) (g : A → B) (ev : A → event) l tr :
  (∀ a tr0, f a tr0 = (Ok (g a), tr0 ++ [ev a])) →
  for_each f l tr = (Ok (map g l), tr ++ map ev l).
Proof.
  intros Hf. revert tr. induction l as [|a l IH]; intros tr; simpl.
  - by rewrite app_nil_r.
  - unfold_M. rewrite Hf, IH. by rewrite <- app_assoc.
Qed.

(** One iteration of the sentence loop, written out. *)
Lemma score_sentence_run rouge_get_scores aggregate_f references is_test sentence tr :
  score_sentence rouge_get_scores aggregate_f references is_test sentence tr =
  if degenerate sentence then (Ok (zero_value is_test), tr)
  else if is_test then
    (match aggregate_test_scores (map (test_score rouge_get_scores sentence) references) with
     | Ok d => Ok (VDict d)
     | Err e => Err e
     end, tr ++ map (RougeCall sentence) references)
  else
    (match aggregate_f (map (train_score rouge_get_scores sentence) references) with
     | Ok x => Ok (VFloat x)
     | Err e => Err e
     end, tr ++ map (RougeCall sentence) references).
Proof.
  unfold score_sentence. destruct (degenerate sentence); [done|].
  destruct is_test; unfold_M.
  - rewrite (for_each_total _ (test_score rouge_get_scores sentence) (RougeCall sentence))
      by done.
    by destruct (aggregate_test_scores _).
  - rewrite (for_each_total _ (train_score rouge_get_scores sentence) (RougeCall sentence))
      by done.
    by destruct (aggregate_f _).
Qed.

Lemma for_each_ext {A B} (f g : A → M B) l tr :
  (∀ a tr0, f a tr0 = g a tr0) → for_each f l tr = for_each g l tr.
Proof.
  intros Hfg. revert tr. induction l as [|a l IH]; intros tr; simpl; [done|].
  unfold_M. rewrite Hfg. destruct (g a tr) as [[b|e] tr1]; [|done]. by rewrite IH.
Qed.

Lemma sentence_loop_ok rouge_get_scores aggregate_f references is_test sentences :
  ∀ tr results tr',
    for_each (score_sentence rouge_get_scores aggregate_f references is_test) sentences tr
      = (Ok results, tr') →
    tr' = tr ++ expected_calls sentences references ∧
    length results = length sentences ∧
    Forall (λ v, is_float v = negb is_test) results.
Proof.
  induction sentences as [|s rest IH]; intros tr results tr'.
  - simpl. intros [= <- <-]. by rewrite app_nil_r.
  - cbn [for_each]. unfold_M. rewrite score_sentence_run.
    unfold expected_calls. cbn [flat_map]. fold (expected_calls rest references).
    destruct (degenerate s).
    + destruct (for_each _ rest tr) as [[bs|e] tr1] eqn:Hrest; [|done].
      intros [= <- <-]. destruct (IH _ _ _ Hrest) as (-> & Hlen & Htypes).
      split; [done|]. split; [simpl; by rewrite Hlen|].
      constructor; [by destruct is_test | done].
    + destruct is_test.
      * destruct (aggregate_test_scores _) as [d|e]; [|done].
        destruct (for_each _ rest _) as [[bs|e] tr1] eqn:Hrest; [|done].
        intros [= <- <-]. destruct (IH _ _ _ Hrest) as (-> & Hlen & Htypes).
        split; [by rewrite <- app_assoc|]. split; [simpl; by rewrite Hlen|].
        by constructor.
      * destruct (aggregate_f _) as [x|e]; [|done].
        destruct (for_each _ rest _) as [[bs|e] tr1] eqn:Hrest; [|done].
        intros [= <- <-]. destruct (IH _ _ _ Hrest) as (-> & Hlen & Htypes).
        split; [by rewrite <- app_assoc|]. split; [simpl; by rewrite Hlen|].
        by constructor.
Qed.

(** X4. When [compute_rouges] returns, it returns one entry per sentence,
    floats only in train mode and dictionaries only in test mode, and it
    has called the ROUGE engine exactly once for every pair of a
    non-degenerate sentence and a reference, sentence by sentence and in
    the order of the references. *)
Theorem compute_rouges_calls_and_types
    (rouge_get_scores : string → string → result (gmap string (gmap string Q)))
    (sentences references : list string) (aggregation : string) (is_test : bool)
    (tr : trace) (results : list value) (tr' : trace) :
  compute_rouges rouge_get_scores sentences references aggregation is_test tr
    = (Ok results, tr') →
  tr' = tr ++ expected_calls sentences references ∧
  length results = length sentences ∧
  Forall (λ v, is_float v = negb is_test) results.
Proof.
  unfold compute_rouges. unfold_M.
  destruct (select_aggregate aggregation) as [f|e]; [|done].
  apply sentence_loop_ok.
Qed.

Lemma compute_rouges_calls_and_types_witness :
  [RougeCall "a cat" "x"; RougeCall "a cat" "y"] =
    [] ++ expected_calls [""; "a cat"] ["x"; "y"] ∧
  length [VFloat 0%Q; VFloat 0%Q] = length [""; "a cat"] ∧
  Forall (λ v, is_float v = negb false) [VFloat 0%Q; VFloat 0%Q].
Proof.
  apply (compute_rouges_calls_and_types (λ _ _, Err RuntimeError)
           [""; "a cat"] ["x"; "y"] "max" false []).
  reflexivity.
Defined.

(** X5. A failure of the ROUGE engine cannot be told from a zero score:
    [compute_rouges] behaves the same, results and calls, when every
    failure of the engine is replaced by the all-zero dictionary. *)
Theorem compute_rouges_recovers_engine_failures
    (rouge_get_scores : string → string → result (gmap string (gmap string Q)))
    (sentences references : list string) (aggregation : string) (is_test : bool)
    (tr : trace) :
  compute_rouges rouge_get_scores sentences references aggregation is_test tr =
  compute_rouges (recovered rouge_get_scores) sentences references aggregation is_test tr.
Proof.
  unfold compute_rouges. unfold_M.
  destruct (select_aggregate aggregation) as [f|e]; [|done].
  apply for_each_ext. intros s tr0. rewrite !score_sentence_run.
  assert (∀ r, test_score (recovered rouge_get_scores) s r = test_score rouge_get_scores s r)
    as Htest.
  { intros r. unfold test_score, recovered. by destruct (rouge_get_scores s r). }
  assert (∀ r, train_score (recovered rouge_get_scores) s r = train_score rouge_get_scores s r)
    as Htrain.
  { intros r. unfold train_score, recovered. by destruct (rouge_get_scores s r). }
  by rewrite (map_ext _ _ Htest), (map_ext _ _ Htrain).
Qed.

Lemma sentence_loop_max rouge_get_scores references sentences :
  references ≠ [] →
  ∀ tr, ∃ results,
    for_each (score_sentence rouge_get_scores py_max references false) sentences tr
      = (Ok results, tr ++ expected_calls sentences references) ∧
    Forall2 (λ s v, degenerate s = false →
               ∃ m, v = VFloat m ∧
                    m ∈ map (train_score rouge_get_scores s) references ∧
                    ∀ y, y ∈ map (train_score rouge_get_scores s) references → (y <= m)%Q)
      sentences results.
Proof.
  intros Hrefs. induction sentences as [|s rest IH]; intros tr.
  - exists []. simpl. rewrite app_nil_r. split; [done | constructor].
  - cbn [for_each]. unfold_M. rewrite score_sentence_run.
    unfold expected_calls. cbn [flat_map]. fold (expected_calls rest references).
    destruct (degenerate s) eqn:Hdeg.
    + destruct (IH tr) as (results & -> & Hall).
      exists (zero_value false :: results). split; [done|].
      constructor; [intros ?; congruence | done].
    + destruct (py_max_nonempty (map (train_score rouge_get_scores s) references))
        as (m & -> & Hin & Hmax).
      { by destruct references. }
      destruct (IH (tr ++ map (RougeCall s) references)) as (results & -> & Hall).
      exists (VFloat m :: results). split; [by rewrite <- app_assoc|].
      constructor; [eauto | done].
Qed.

(** X6. In train mode under "max", with at least one reference,
    [compute_rouges] always returns; the entry of a non-degenerate
    sentence is one of its per-reference values (the ROUGE-2 f of the
    engine, or 0 where the engine or the lookup failed), and none of them
    is greater. *)
Theorem compute_rouges_max_is_best_reference
    (rouge_get_scores : string → string → result (gmap string (gmap string Q)))
    (sentences references : list string) (tr : trace) :
  references ≠ [] →
  ∃ results,
    compute_rouges rouge_get_scores sentences references "max" false tr
      = (Ok results, tr ++ expected_calls sentences references) ∧
    Forall2 (λ s v, degenerate s = false →
               ∃ m, v = VFloat m ∧
                    m ∈ map (train_score rouge_get_scores s) references ∧
                    ∀ y, y ∈ map (train_score rouge_get_scores s) references → (y <= m)%Q)
      sentences results.
Proof.
  intros Hrefs. unfold compute_rouges. unfold_M. simpl.
  by apply sentence_loop_max.
Qed.

Lemma compute_rouges_max_is_best_reference_witness :
  ∃ results,
    compute_rouges (λ _ _, Ok zero_scores) ["a cat"] ["x"; "y"] "max" false []
      = (Ok results, [] ++ expected_calls ["a cat"] ["x"; "y"]) ∧
    Forall2 (λ s v, degenerate s = false →
               ∃ m, v = VFloat m ∧
                    m ∈ map (train_score (λ _ _, Ok zero_scores) s) ["x"; "y"] ∧
                    ∀ y, y ∈ map (train_score (λ _ _, Ok zero_scores) s) ["x"; "y"] →
                         (y <= m)%Q)
      ["a cat"] results.
Proof.
  apply (compute_rouges_max_is_best_reference (λ _ _, Ok zero_scores)
           ["a cat"] ["x"; "y"] []).
  discriminate.
Defined.

Lemma select_aggregate_empty aggregation f :
  select_aggregate aggregation = Ok f → f [] = Err (empty_error aggregation).
Proof.
  unfold select_aggregate, empty_error.
  destruct (decide (aggregation = "max")); [by intros [= <-]|].
  destruct (decide (aggregation = "average")); [by intros [= <-]|].
  destruct (decide (aggregation = "harmonic")); [by intros [= <-] | done].
Qed.

(** X7. With no reference at all the engine is never called. In test
    mode [compute_rouges] returns, for each sentence, the all-zero
    dictionary if the sentence is degenerate and the empty dictionary
    otherwise. In train mode it returns zeros if every sentence is
    degenerate, and otherwise raises what the aggregation function raises
    on an empty list: [ValueError] for max, [ZeroDivisionError] for
    average, [StatisticsError] for harmonic. *)
Theorem compute_rouges_without_references
    (rouge_get_scores : string → string → result (gmap string (gmap string Q)))
    (sentences : list string) (aggregation : string) (tr : trace) :
  aggregation ∈ valid_aggregations →
  compute_rouges rouge_get_scores sentences [] aggregation true tr =
    (Ok (map (λ s, if degenerate s then VDict zero_scores else VDict ∅) sentences), tr) ∧
  compute_rouges rouge_get_scores sentences [] aggregation false tr =
    (if forallb degenerate sentences
     then Ok (map (λ _, VFloat 0%Q) sentences)
     else Err (empty_error aggregation), tr).
Proof.
  intros Hvalid. destruct (select_aggregate_valid aggregation Hvalid) as [f Hf].
  pose proof (select_aggregate_empty aggregation f Hf) as Hempty.
  unfold compute_rouges. unfold_M. rewrite Hf. clear Hf Hvalid. split.
  - revert tr. induction sentences as [|s rest IH]; intros tr; [done|].
    cbn [for_each map]. unfold_M. rewrite score_sentence_run.
    destruct (degenerate s); simpl; rewrite ?app_nil_r; by rewrite IH.
  - revert tr. induction sentences as [|s rest IH]; intros tr; [done|].
    cbn [for_each map forallb]. unfold_M. rewrite score_sentence_run.
    destruct (degenerate s); simpl.
    + rewrite IH. by destruct (forallb degenerate rest).
    + by rewrite Hempty, app_nil_r.
Qed.

Lemma compute_rouges_without_references_witness :
  compute_rouges (λ _ _, Err RuntimeError) [""; "a cat"] [] "average" true [] =
    (Ok (map (λ s, if degenerate s then VDict zero_scores else VDict ∅) [""; "a cat"]), []) ∧
  compute_rouges (λ _ _, Err RuntimeError) [""; "a cat"] [] "average" false [] =
    (if forallb degenerate [""; "a cat"]
     then Ok (map (λ _, VFloat 0%Q) [""; "a cat"])
     else Err (empty_error "average"), []).
Proof.
  apply (compute_rouges_without_references (λ _ _, Err RuntimeError)
           [""; "a cat"] "average" []).
  apply list_elem_of_further, list_elem_of_here.
Defined.

(** ** Outcomes of the two dictionary functions *)

Lemma leaf_error d key metric e :
  leaf d key metric = Err e → e = KeyError key ∨ e = KeyError metric.
Proof.
  unfold leaf, getitem. unfold mbind, result_bind.
  destruct (d !! key) as [inner|]; [|intros [= <-]; by left].
  destruct (inner !! metric); [done | intros [= <-]; by right].
Qed.

Lemma aggregate_loop_ok_inv scores m b d :
  aggregate_loop scores m b = Ok d →
  ∀ d', d' ∈ scores → ∃ x, leaf d' "rouge-2" "f" = Ok x.
Proof.
  revert m b. induction scores as [|d0 rest IH]; intros m b Hrun d' Hd'.
  - by apply elem_of_nil in Hd'.
  - simpl in Hrun. destruct (leaf d0 "rouge-2" "f") as [x|e] eqn:Hleaf; [|done].
    apply elem_of_cons in Hd' as [->|Hd']; [eauto|].
    destruct (Qle_bool m x); eapply IH; eauto.
Qed.

Lemma aggregate_loop_error scores m b e :
  aggregate_loop scores m b = Err e → e = KeyError "rouge-2" ∨ e = KeyError "f".
Proof.
  revert m b. induction scores as [|d0 rest IH]; intros m b; simpl; [done|].
  destruct (leaf d0 "rouge-2" "f") as [x|e0] eqn:Hleaf.
  - destruct (Qle_bool m x); apply IH.
  - intros [= <-]. by apply leaf_error in Hleaf.
Qed.

(** X8. [aggregate_test_scores] returns exactly when every dictionary has
    a rouge-2 f entry, and otherwise raises [KeyError] for "rouge-2" or
    "f". What it returns is one of the dictionaries or the empty
    dictionary; it is the empty dictionary when the list is empty or every
    rouge-2 f is negative. *)
Theorem aggregate_test_scores_outcomes (scores : list (gmap string (gmap string Q))) :
  ((∀ d, d ∈ scores → ∃ x, leaf d "rouge-2" "f" = Ok x) ↔
   ∃ d, aggregate_test_scores scores = Ok d) ∧
  (∀ d, aggregate_test_scores scores = Ok d → d = ∅ ∨ d ∈ scores) ∧
  (∀ e, aggregate_test_scores scores = Err e →
        e = KeyError "rouge-2" ∨ e = KeyError "f") ∧
  ((∀ d, d ∈ scores → ∃ x, leaf d "rouge-2" "f" = Ok x ∧ (x < 0)%Q) →
   aggregate_test_scores scores = Ok ∅).
Proof.
  unfold aggregate_test_scores. repeat split.
  - intros Hwf.
    destruct (aggregate_loop_spec scores 0%Q ∅ Hwf)
      as [[Hres _]|(_ & best & _ & _ & Hres & _)]; eauto.
  - intros [d Hd] d' Hd'. by eapply aggregate_loop_ok_inv.
  - intros d Hd.
    destruct (aggregate_loop_spec scores 0%Q ∅ (aggregate_loop_ok_inv _ _ _ _ Hd))
      as [[Hres _]|(i & best & _ & Hi & Hres & _)].
    + left. congruence.
    + right. apply list_elem_of_lookup_2 in Hi. congruence.
  - apply aggregate_loop_error.
  - intros Hneg.
    destruct (aggregate_loop_spec scores 0%Q ∅)
      as [[Hres _]|(i & best & x & Hi & _ & Hx & Hpos & _)]; [|done|].
    + intros d Hd. destruct (Hneg d Hd) as (x & ? & _). eauto.
    + apply list_elem_of_lookup_2 in Hi. destruct (Hneg best Hi) as (y & Hy & Hlt).
      rewrite Hx in Hy. injection Hy as <-. lra.
Qed.

Lemma sum_leaves_inv dict_list key metric acc :
  (∀ total, sum_leaves dict_list key metric acc = Ok total →
     ∀ d, d ∈ dict_list → ∃ x, leaf d key metric = Ok x) ∧
  (∀ e, sum_leaves dict_list key metric acc = Err e → ∃ k, e = KeyError k).
Proof.
  revert acc. induction dict_list as [|d0 rest IH]; intros acc; simpl.
  - split; [|done]. intros total _ d Hd. by apply elem_of_nil in Hd.
  - destruct (leaf d0 key metric) as [x|e0] eqn:Hleaf.
    + destruct (IH (acc + x)%Q) as [Hok Herr]. split; [|done].
      intros total Hrun d [->|Hd]%elem_of_cons; eauto.
    + split; [done|]. intros e [= <-]. apply leaf_error in Hleaf as [->| ->]; eauto.
Qed.

Lemma avg_leaf_inv dict_list key metric :
  (∀ x, avg_leaf dict_list key metric = Ok x →
     dict_list ≠ [] ∧ ∀ d, d ∈ dict_list → ∃ y, leaf d key metric = Ok y) ∧
  (∀ e, avg_leaf dict_list key metric = Err e →
     (dict_list = [] ∧ e = ZeroDivisionError) ∨ (dict_list ≠ [] ∧ ∃ k, e = KeyError k)).
Proof.
  unfold avg_leaf. unfold mbind, result_bind.
  destruct (sum_leaves_inv dict_list key metric 0%Q) as [Hok Herr].
  destruct (sum_leaves dict_list key metric 0%Q) as [total|e0] eqn:Hsum.
  - destruct dict_list as [|d0 rest].
    + split; [done|]. intros e [= <-]. by left.
    + split; [|done]. intros x _. split; [done|]. by eapply Hok.
  - split; [done|]. intros e [= <-]. right. split; [|by apply Herr].
    intros ->. done.
Qed.

Lemma fill_metrics_inv dict_list key ms avg_dict :
  (∀ r, fill_metrics dict_list key ms avg_dict = Ok r →
     ∀ m, m ∈ ms → ∃ x, avg_leaf dict_list key m = Ok x) ∧
  (∀ e, fill_metrics dict_list key ms avg_dict = Err e →
     (dict_list = [] ∧ e = ZeroDivisionError) ∨ (dict_list ≠ [] ∧ ∃ k, e = KeyError k)).
Proof.
  revert avg_dict. induction ms as [|m0 rest IH]; intros avg_dict; simpl.
  - split; [|done]. intros r _ m Hm. by apply elem_of_nil in Hm.
  - destruct (avg_leaf_inv dict_list key m0) as [Hok0 Herr0].
    destruct (avg_leaf dict_list key m0) as [v|e0] eqn:Hv.
    + destruct (Hok0 v eq_refl) as [Hne _].
      unfold getitem. destruct (avg_dict !! key) as [inner|].
      * destruct (IH (<[key:=<[m0:=v]> inner]> avg_dict)) as [Hok Herr].
        split; [|done]. intros r Hrun m [->|Hm]%elem_of_cons; eauto.
      * split; [done|]. intros e [= <-]. right. eauto.
    + split; [done|]. intros e [= <-]. by apply Herr0.
Qed.

Lemma fill_keys_inv dict_list ks avg_dict :
  (∀ r, fill_keys dict_list ks avg_dict = Ok r →
     ∀ key m, key ∈ ks → m ∈ metrics → ∃ x, avg_leaf dict_list key m = Ok x) ∧
  (∀ e, fill_keys dict_list ks avg_dict = Err e →
     (dict_list = [] ∧ e = ZeroDivisionError) ∨ (dict_list ≠ [] ∧ ∃ k, e = KeyError k)).
Proof.
  revert avg_dict. induction ks as [|k0 rest IH]; intros avg_dict; cbn [fill_keys].
  - split; [|done]. intros r _ key m Hkey. by apply elem_of_nil in Hkey.
  - destruct (fill_metrics_inv dict_list k0 metrics (<[k0:=∅]> avg_dict)) as [Hok0 Herr0].
    destruct (fill_metrics dict_list k0 metrics (<[k0:=∅]> avg_dict)) as [avg1|e0].
    + destruct (IH avg1) as [Hok Herr]. split; [|done].
      intros r Hrun key m [->|Hkey]%elem_of_cons Hm; eauto.
    + split; [done|]. intros e [= <-]. by apply Herr0.
Qed.

(** X9. [compute_avg_dict] returns exactly when the list is not empty and
    every dictionary has all nine leaves (whatever their values and
    whatever else the dictionaries hold). Otherwise it raises
    [ZeroDivisionError] on the empty list and a [KeyError] on a non-empty
    one. *)
Theorem compute_avg_dict_outcomes (dict_list : list (gmap string (gmap string Q))) :
  ((dict_list ≠ [] ∧ Forall has_leaves dict_list) ↔
   ∃ avg, compute_avg_dict dict_list = Ok avg) ∧
  (∀ e, compute_avg_dict dict_list = Err e →
     (dict_list = [] ∧ e = ZeroDivisionError) ∨ (dict_list ≠ [] ∧ ∃ k, e = KeyError k)).
Proof.
  unfold compute_avg_dict.
  destruct (fill_keys_inv dict_list keys ∅) as [Hok Herr].
  split; [split|done].
  - intros [Hne Hall]. rewrite Forall_forall in Hall.
    destruct (fill_keys_spec dict_list keys ∅) as (avg & Hres & _); [|eauto].
    intros key m Hkey Hm.
    destruct (avg_leaf_ok dict_list key m Hne) as (? & x & _ & ? & _); [|eauto].
    intros d Hd. by apply (Hall d Hd).
  - intros [avg Havg].
    assert (dict_list ≠ []) as Hne.
    { destruct (Hok avg Havg "rouge-1" "f") as [x Hx];
        [unfold keys; set_solver | unfold metrics; set_solver|].
      by apply avg_leaf_inv in Hx as [? _]. }
    split; [done|]. apply Forall_forall. intros d Hd key metric Hkey Hmetric.
    destruct (Hok avg Havg key metric Hkey Hmetric) as [x Hx].
    apply avg_leaf_inv in Hx as [_ Hleaves]. by apply Hleaves.
Qed.

(** ** Ranking with a score list of another length *)

Lemma select_lookups {A} (l : list A) indices :
  Forall (λ i, i < length l) indices →
  select l indices = Ok (omap (λ i, l !! i) indices).
Proof.
  induction indices as [|i rest IH]; intros Hall; simpl; [done|].
  apply Forall_cons in Hall as [Hi Hall].
  destruct (lookup_lt_is_Some_2 l i Hi) as [x Hx].
  rewrite Hx, (IH Hall). done.
Qed.

Lemma select_out_of_range {A} (l : list A) indices i :
  i ∈ indices → (length l ≤ i)%nat → select l indices = Err IndexError.
Proof.
  induction indices as [|j rest IH]; intros Hin Hi; [by apply elem_of_nil in Hin|].
  simpl. destruct (l !! j) as [x|] eqn:Hj; [|done].
  apply elem_of_cons in Hin as [->|Hin].
  - apply lookup_lt_Some in Hj. lia.
  - by rewrite IH.
Qed.

Lemma omap_lookup_seq {A} (l : list A) k n :
  omap (λ i, l !! i) (seq k n) = take n (drop k l).
Proof.
  revert k. induction n as [|n IH]; intros k; [done|].
  change (seq k (S n)) with (k :: seq (S k) n).
  change (omap (λ i, l !! i) (k :: seq (S k) n))
    with (match l !! k with
          | Some x => x :: omap (λ i, l !! i) (seq (S k) n)
          | None => omap (λ i, l !! i) (seq (S k) n)
          end).
  rewrite IH. destruct (l !! k) as [x|] eqn:Hk.
  - by rewrite (drop_S _ _ _ Hk).
  - apply lookup_ge_None in Hk.
    rewrite !drop_ge by lia. by rewrite !take_nil.
Qed.

(** X10. [get_scores] with a score list of another length. With fewer
    scores than sentences it silently ranks only the first [len(scores)]
    sentences: it returns a rearrangement of those and of the scores, and
    drops the other sentences. With more scores than sentences it raises
    [IndexError]. *)
Theorem get_scores_length_mismatch
    (sentences : list string) (context : string) (model : relevance_model)
    (scores : list Q) (tr : trace) :
  model sentences (replicate (length sentences) context) = PyList scores →
  ((length scores ≤ length sentences)%nat →
     ∃ sorted_sentences sorted_scores,
       get_scores sentences context model tr =
         (Ok (sorted_sentences, sorted_scores),
          tr ++ [ModelCall sentences (replicate (length sentences) context)]) ∧
       sorted_sentences ≡ₚ take (length scores) sentences ∧
       sorted_scores ≡ₚ scores) ∧
  (length sentences < length scores →
     get_scores sentences context model tr =
       (Err IndexError,
        tr ++ [ModelCall sentences (replicate (length sentences) context)])).
Proof.
  intros Hmodel.
  set (key := λ i : nat, default 0%Q (scores !! i)).
  set (idx := sorted_reverse key (seq 0 (length scores))).
  assert (idx ≡ₚ seq 0 (length scores)) as Hperm by apply sorted_reverse_perm.
  assert (Forall (λ i, i < length scores) idx) as Hrange.
  { rewrite Hperm. apply Forall_forall. intros i Hi%elem_of_seq. lia. }
  split.
  - intros Hlen.
    exists (omap (λ i, sentences !! i) idx), (omap (λ i, scores !! i) idx).
    split; [|split].
    + unfold get_scores, emit, lift, mbind, M_bind, mret, M_ret.
      rewrite Hmodel. fold key. fold idx.
      rewrite (select_lookups sentences idx), (select_lookups scores idx); [done..|].
      eapply Forall_impl; [done|]. simpl. lia.
    + rewrite Hperm, omap_lookup_seq. by rewrite drop_0.
    + rewrite Hperm, omap_lookup_seq, drop_0. by rewrite take_ge.
  - intros Hlen.
    unfold get_scores, emit, lift, mbind, M_bind, mret, M_ret.
    rewrite Hmodel. fold key. fold idx.
    rewrite (select_out_of_range sentences idx (length sentences)); [done| |done].
    rewrite Hperm. apply elem_of_seq. lia.
Qed.

Lemma get_scores_length_mismatch_witness :
  (∃ sorted_sentences sorted_scores,
     get_scores ["a"; "b"; "c"; "d"] "ctx" abc_model [] =
       (Ok (sorted_sentences, sorted_scores),
        [] ++ [ModelCall ["a"; "b"; "c"; "d"] (replicate (length ["a"; "b"; "c"; "d"]) "ctx")]) ∧
     sorted_sentences ≡ₚ take (length [(2 # 10)%Q; (9 # 10)%Q; (5 # 10)%Q]) ["a"; "b"; "c"; "d"] ∧
     sorted_scores ≡ₚ [(2 # 10)%Q; (9 # 10)%Q; (5 # 10)%Q]) ∧
  get_scores ["a"; "b"] "ctx" abc_model [] =
    (Err IndexError, [] ++ [ModelCall ["a"; "b"] (replicate (length ["a"; "b"]) "ctx")]).
Proof.
  split.
  - apply (proj1 (get_scores_length_mismatch ["a"; "b"; "c"; "d"] "ctx" abc_model
                    [(2 # 10)%Q; (9 # 10)%Q; (5 # 10)%Q] [] eq_refl)).
    simpl. lia.
  - apply (proj2 (get_scores_length_mismatch ["a"; "b"] "ctx" abc_model
                    [(2 # 10)%Q; (9 # 10)%Q; (5 # 10)%Q] [] eq_refl)).
    simpl. lia.
Defined.

(** ** The evaluator: what each group is scored against *)

Lemma label_loop_trace compute_labels highlights_gt highlights_pred tr r tr' :
  for_each (λ h, call_compute_labels compute_labels h highlights_gt) highlights_pred tr
    = (r, tr') →
  ∃ n, (n ≤ length highlights_pred)%nat ∧
    tr' = tr ++ map (λ h, LabelCall h highlights_gt) (take n highlights_pred) ∧
    ∀ scored, r = Ok scored →
      n = length highlights_pred ∧
      ∃ f, (compute_labels = Some f ∨ highlights_pred = []) ∧
           Forall2 (λ h p, f h highlights_gt = Ok p) highlights_pred scored.
Proof.
  revert tr r tr'. induction highlights_pred as [|h rest IH]; intros tr r tr'; simpl.
  - intros [= <- <-]. exists 0. split; [done|]. split; [by rewrite app_nil_r|].
    intros scored [= <-]. split; [done|].
    exists (λ _ _, Err TypeError). split; [by right | constructor].
  - unfold_M. unfold call_compute_labels at 1. unfold_M.
    destruct compute_labels as [f|].
    + destruct (f h highlights_gt) as [p|e] eqn:Hp.
      * destruct (for_each _ rest _) as [r0 tr0] eqn:Hrest.
        apply IH in Hrest as (n & Hn & -> & Hok).
        intros Hres. exists (S n). split; [lia|]. split.
        { destruct r0; injection Hres as <- <-; simpl; by rewrite <- app_assoc. }
        intros scored ->. destruct r0 as [ps|]; [|done]. injection Hres as <-.
        destruct (Hok ps eq_refl) as (-> & g & Hg & Hall). split; [done|].
        exists f. split; [by left|]. constructor; [done|].
        destruct Hg as [[= <-]| ->]; [done|]. inversion Hall. constructor.
      * intros [= <- <-]. exists 1. split; [simpl; lia|].
        split; [simpl; by rewrite ?take_0|]. done.
    + intros [= <- <-]. exists 0. split; [lia|]. split; [by rewrite app_nil_r|]. done.
Qed.

(** X11. [evaluate_article] on no predicted highlight raises
    [ZeroDivisionError] without a call. Whenever it returns, it has called
    the label scorer exactly once per predicted highlight, in order, each
    time against [highlights_gt], and its result is the average of the
    dictionaries and the mean of the similarities that the scorer
    answered. Whenever it raises, the calls made are those for a prefix of
    the predicted highlights. *)
Theorem evaluate_article_calls
    (compute_labels : option label_scorer) (highlights_pred : list string)
    (highlights_gt : option (list string)) (tr : trace) :
  evaluate_article compute_labels [] highlights_gt tr = (Err ZeroDivisionError, tr) ∧
  (∀ avg similarity tr',
     evaluate_article compute_labels highlights_pred highlights_gt tr
       = (Ok (avg, similarity), tr') →
     tr' = tr ++ map (λ h, LabelCall h highlights_gt) highlights_pred ∧
     ∃ f scored,
       compute_labels = Some f ∧
       Forall2 (λ h p, f h highlights_gt = Ok p) highlights_pred scored ∧
       compute_avg_dict (scored.*1) = Ok avg ∧
       similarity = np_mean (scored.*2)) ∧
  (∀ e tr',
     evaluate_article compute_labels highlights_pred highlights_gt tr = (Err e, tr') →
     ∃ n, (n ≤ length highlights_pred)%nat ∧
          tr' = tr ++ map (λ h, LabelCall h highlights_gt) (take n highlights_pred)).
Proof.
  split; [done|]. unfold evaluate_article. unfold_M.
  destruct (for_each _ highlights_pred tr) as [r0 tr0] eqn:Hloop.
  apply label_loop_trace in Hloop as (n & Hn & -> & Hok). split.
  - intros avg similarity tr' Hres. destruct r0 as [scored|]; [|done].
    destruct (Hok scored eq_refl) as (-> & f & Hf & Hall).
    destruct (compute_avg_dict (scored.*1)) as [avg0|] eqn:Havg; [|done].
    injection Hres as <- <- <-. rewrite take_ge by done. split; [done|].
    destruct Hf as [->| ->]; [eauto 10|].
    inversion Hall; subst. done.
  - intros e tr' Hres. exists n. split; [done|].
    destruct r0 as [scored|]; [|by injection Hres as <- <-].
    destruct (compute_avg_dict (scored.*1)); [done | by injection Hres as <- <-].
Qed.

Lemma evaluate_article_calls_witness :
  ∃ avg similarity tr',
    evaluate_article (Some zero_labels) ["s1"; "s2"] (Some ["h"]) []
      = (Ok (avg, similarity), tr') ∧
    tr' = [] ++ map (λ h, LabelCall h (Some ["h"])) ["s1"; "s2"] ∧
    ∃ f scored,
      Some zero_labels = Some f ∧
      Forall2 (λ h p, f h (Some ["h"]) = Ok p) ["s1"; "s2"] scored ∧
      compute_avg_dict (scored.*1) = Ok avg ∧
      similarity = np_mean (scored.*2).
Proof.
  destruct (evaluate_article (Some zero_labels) ["s1"; "s2"] (Some ["h"]) [])
    as [[[avg similarity]|e] tr'] eqn:Hrun.
  - exists avg, similarity, tr'. split; [reflexivity|].
    exact (proj1 (proj2 (evaluate_article_calls (Some zero_labels) ["s1"; "s2"]
                           (Some ["h"]) [])) avg similarity tr' Hrun).
  - apply (f_equal (λ p, match p.1 with Ok _ => true | Err _ => false end)) in Hrun.
    vm_compute in Hrun. discriminate Hrun.
Defined.

Lemma closing_highlights_from_heads c h0 rest :
  closing_highlights_from c h0 rest =
  map row_highlights (run_heads_from (Some c) rest) ++
  [default h0 (last (map row_highlights (run_heads_from (Some c) rest)))].
Proof.
  revert c h0. induction rest as [|ex rest IH]; intros c h0; [done|].
  simpl. destruct (decide (context ex = c)) as [->|Hne].
  - rewrite decide_True by done. apply IH.
  - rewrite decide_False by congruence. simpl. rewrite IH. f_equal. f_equal. f_equal.
    rewrite last_cons. by destruct (last _).
Qed.

Lemma closing_highlights_cons ex rest :
  closing_highlights (ex :: rest) =
  closing_highlights_from (context ex) (row_highlights ex) rest.
Proof.
  unfold closing_highlights, run_heads. simpl.
  by rewrite closing_highlights_from_heads.
Qed.

Lemma closing_highlights_from_length c h0 ss rest :
  length (closing_highlights_from c h0 rest) =
  length (open_then (c, ss) (context_runs rest)).
Proof.
  revert c h0 ss. induction rest as [|ex rest IH]; intros c h0 ss; [done|].
  cbn [closing_highlights_from]. destruct (decide (context ex = c)) as [Heq|Hne].
  - rewrite open_then_same by done. apply IH.
  - rewrite open_then_other by done. simpl.
    by rewrite (IH _ _ [sentence ex]).
Qed.

Section EvaluatorPlan.
Variable compute_labels : option label_scorer.
Variable model : relevance_model.
Variable num_highlight : nat.

Lemma close_group_segment st open_context gt tr st' tr' :
  close_group compute_labels model num_highlight st open_context (Some gt) tr
    = (Ok st', tr') →
  ∃ segment d x,
    tr' = tr ++ segment ∧
    scored_segment num_highlight segment
      ((open_context, current_article_sentences st), gt) ∧
    st' = mk_state (current_context st) (current_article_sentences st)
            (current_highlight st) (rouges st ++ [d]) (similarities st ++ [x]).
Proof.
  unfold close_group. unfold_M.
  destruct (get_scores _ _ _ tr) as [r0 tr0] eqn:Hrank.
  apply get_scores_trace in Hrank as ->.
  destruct r0 as [ranked|e]; [|done].
  unfold evaluate_article. unfold_M.
  destruct (for_each _ (take num_highlight ranked.1) _) as [r1 tr1] eqn:Hloop.
  apply label_loop_trace in Hloop as (n & Hn & -> & Hok).
  destruct r1 as [scored|e]; [|done].
  destruct (Hok scored eq_refl) as (-> & _).
  destruct (compute_avg_dict (scored.*1)) as [avg|e]; [|done].
  intros [= <- <-]. rewrite take_ge by done.
  eexists _, avg, (np_mean (scored.*2)). split; [by rewrite <- app_assoc|].
  split; [|done]. simpl.
  exists (map (λ h, LabelCall h (Some gt)) (take num_highlight ranked.1)).
  split; [done|]. split.
  - rewrite length_map, length_take. lia.
  - apply Forall_map, Forall_forall. intros h _. by exists h.
Qed.

Lemma evaluate_from_segments rest :
  ∀ st c h0 tr st' tr',
    current_context st = Some c →
    current_highlight st = Some h0 →
    evaluate_from compute_labels model num_highlight st rest tr = (Ok st', tr') →
    ∃ segments,
      tr' = tr ++ concat segments ∧
      Forall2 (scored_segment num_highlight) segments
        (zip (open_then (c, current_article_sentences st) (context_runs rest))
             (closing_highlights_from c h0 rest)).
Proof.
  induction rest as [|ex rest IH]; intros st c h0 tr st' tr' Hctx Hhl Hrun.
  - unfold evaluate_from in Hrun. simpl in Hrun. unfold_M.
    unfold process_last in Hrun. rewrite Hctx, Hhl in Hrun.
    apply close_group_segment in Hrun as (segment & d & x & -> & Hseg & _).
    exists [segment]. simpl. rewrite app_nil_r. split; [done|]. by repeat constructor.
  - rewrite evaluate_from_cons in Hrun. cbn [closing_highlights_from].
    destruct (decide (context ex = c)) as [Heq|Hne].
    + rewrite step_same in Hrun by congruence.
      eapply IH in Hrun as (segments & -> & Hall); [|done..].
      simpl in Hall. exists segments. by rewrite open_then_same.
    + rewrite (step_change _ _ _ _ _ c) in Hrun by done.
      destruct (close_group _ _ _ _ _ _ _) as [[st1|e] tr1] eqn:Hclose; [|done].
      apply close_group_segment in Hclose as (segment & d & x & -> & Hseg & ->).
      eapply IH in Hrun as (segments & -> & Hall); [|done..].
      simpl in Hall. exists (segment :: segments).
      rewrite open_then_other by done. split; [simpl; by rewrite app_assoc|].
      by constructor.
Qed.
End EvaluatorPlan.

(** X12. Which highlights each group is scored against. The stream has
    as many closing highlights as runs; when the evaluation of the groups
    returns, its trace is, run by run, the call of the relevance model on
    the run followed by at most [num_highlight] calls of the label scorer,
    every one of them against the highlights of the row that starts the
    next run, and for the last run against the highlights of its own
    first row. *)
Theorem evaluate_model_scoring_plan
    (compute_labels : option label_scorer) (model : relevance_model)
    (num_highlight : nat) (dataset : list example) (st : loop_state) (tr : trace) :
  length (closing_highlights dataset) = length (context_runs dataset) ∧
  (evaluate_groups compute_labels model num_highlight dataset [] = (Ok st, tr) →
   ∃ segments,
     tr = concat segments ∧
     Forall2 (scored_segment num_highlight) segments
       (zip (context_runs dataset) (closing_highlights dataset))).
Proof.
  destruct dataset as [|ex rest].
  - split; [done|]. unfold evaluate_groups, evaluate_from. simpl. unfold_M.
    intros [= <- <-]. exists []. split; [done | constructor].
  - rewrite closing_highlights_cons. split.
    + apply (closing_highlights_from_length _ _ [sentence ex]).
    + unfold evaluate_groups. rewrite evaluate_from_cons, step_first by done.
      intros Hrun.
      eapply evaluate_from_segments in Hrun as (segments & -> & Hall); [|done..].
      by exists segments.
Qed.

Lemma evaluate_model_scoring_plan_witness :
  ∃ st tr segments,
    evaluate_groups (Some zero_labels) later_first 3 two_articles [] = (Ok st, tr) ∧
    tr = concat segments ∧
    Forall2 (scored_segment 3) segments
      (zip (context_runs two_articles) (closing_highlights two_articles)).
Proof.
  destruct (evaluate_groups (Some zero_labels) later_first 3 two_articles [])
    as [[st|e] tr] eqn:Hrun.
  - destruct (proj2 (evaluate_model_scoring_plan (Some zero_labels) later_first 3
                       two_articles st tr) Hrun) as (segments & Htr & Hall).
    exists st, tr, segments. split; [reflexivity|]. split; assumption.
  - apply (f_equal (λ p, match p.1 with Ok _ => true | Err _ => false end)) in Hrun.
    vm_compute in Hrun. discriminate Hrun.
Defined.

(** ** Cleaning: prefixes, substrings and order *)

Lemma startswith_spec p s : startswith p s = true ↔ ∃ rest, s = p +:+ rest.
Proof.
  revert s. induction p as [|a p IH]; intros s; simpl.
  - split; [intros _; by exists s | done].
  - destruct s as [|b s]; [split; [done | by intros [rest Hrest]]|].
    rewrite andb_true_iff, bool_decide_eq_true, IH. split.
    + intros [-> [rest ->]]. by exists rest.
    + intros [rest Hrest]. rewrite append_cons in Hrest.
      injection Hrest as -> ->. eauto.
Qed.

Lemma drop_chars_append p rest : drop_chars (len p) (p +:+ rest) = rest.
Proof. induction p as [|a p IH]; [done | exact IH]. Qed.

Lemma len_append a b : len (a +:+ b) = len a + len b.
Proof.
  unfold len. induction a as [|x a IH]; [done|].
  rewrite append_cons. simpl. by rewrite IH.
Qed.

(** [split_once] cuts at the first occurrence of the separator. *)
Lemma split_once_spec sep s :
  match split_once sep s with
  | Some (before, after) =>
      s = before +:+ sep +:+ after ∧
      ∀ b a, s = b +:+ sep +:+ a → (len before ≤ len b)%nat
  | None => ∀ b a, s ≠ b +:+ sep +:+ a
  end.
Proof.
  induction s as [|c s IH].
  - destruct sep as [|x sep]; simpl.
    + split; [done|]. intros b a _. lia.
    + intros b a Hs. by destruct b.
  - cbn [split_once]. destruct (startswith sep (String c s)) eqn:Hstart.
    + apply startswith_spec in Hstart as [rest Hrest]. split.
      * simpl. by rewrite Hrest, drop_chars_append.
      * intros b a _. simpl. lia.
    + destruct (split_once sep s) as [[before after]|].
      * destruct IH as [-> Hfirst]. split; [by rewrite append_cons|].
        intros b a Hs. destruct b as [|c' b].
        -- simpl in Hs. assert (startswith sep (String c (before +:+ sep +:+ after)) = true)
             as Hyes by (apply startswith_spec; eauto). congruence.
        -- rewrite append_cons in Hs. injection Hs as -> Hs.
           specialize (Hfirst b a Hs). simpl. lia.
      * intros b a Hs. destruct b as [|c' b].
        -- simpl in Hs. assert (startswith sep (String c s) = true)
             as Hyes by (apply startswith_spec; eauto). congruence.
        -- rewrite append_cons in Hs. injection Hs as -> Hs. by apply (IH b a).
Qed.

(** X13. The boilerplate rule of [clean_dataset] (for "--" and for
    "(CNN)"). An article without the marker is left as it is. Otherwise
    the text before the first occurrence of the marker decides: with at
    most 40 characters before it, the article becomes the text after that
    first occurrence; with more, the article is left as it is. *)
Theorem strip_prefix_first_occurrence (marker article : string) :
  ((∀ b a, article ≠ b +:+ marker +:+ a) ∧ strip_prefix marker article = article)
  ∨ ∃ before after,
      article = before +:+ marker +:+ after ∧
      (∀ b a, article = b +:+ marker +:+ a → (len before ≤ len b)%nat) ∧
      strip_prefix marker article =
        if Nat.leb (len before) 40 then after else article.
Proof.
  unfold strip_prefix. pose proof (split_once_spec marker article) as Hspec.
  destruct (split_once marker article) as [[before after]|].
  - right. exists before, after. destruct Hspec as [Hcut Hfirst]. done.
  - left. done.
Qed.

Lemma append_nil_r (s : string) : s +:+ "" = s.
Proof. induction s as [|c s IH]; [done|]. by rewrite append_cons, IH. Qed.

Lemma substring_refl s : substring_of s s.
Proof. exists "", "". simpl. by rewrite append_nil_r. Qed.

Lemma substring_trans a b c : substring_of a b → substring_of b c → substring_of a c.
Proof.
  intros (p1 & q1 & ->) (p2 & q2 & ->).
  exists (p2 +:+ p1), (q1 +:+ q2). by rewrite !append_assoc.
Qed.

Lemma substring_suffix pre s : substring_of s (pre +:+ s).
Proof. exists pre, "". by rewrite append_nil_r. Qed.

Lemma substring_len a b : substring_of a b → (len a ≤ len b)%nat.
Proof. intros (p & q & ->). rewrite !len_append. lia. Qed.

Lemma lstrip_suffix s : ∃ pre, s = pre +:+ lstrip s.
Proof.
  induction s as [|c s [pre IH]]; [by exists ""|]. simpl.
  destruct (isspace c); [|by exists ""].
  exists (String c pre). by rewrite append_cons, <- IH.
Qed.

Lemma rstrip_prefix s : ∃ post, s = rstrip s +:+ post.
Proof.
  induction s as [|c s [post IH]]; [by exists ""|]. simpl.
  destruct (rstrip s) as [|c' r] eqn:Hr.
  - destruct (isspace c).
    + by exists (String c s).
    + exists s. done.
  - exists post. by rewrite append_cons, <- IH.
Qed.

Lemma strip_substring s : substring_of (strip s) s.
Proof.
  unfold strip. destruct (lstrip_suffix s) as [pre Hpre].
  destruct (rstrip_prefix (lstrip s)) as [post Hpost].
  exists pre, post. by rewrite <- Hpost.
Qed.

Lemma join_cons_cons sep a b l :
  join sep (a :: b :: l) = a +:+ sep +:+ join sep (b :: l).
Proof. reflexivity. Qed.

(** [sep.join(s.split(sep))] is [s]. *)
Lemma join_split_char sep s : join (String sep "") (split_char sep s) = s.
Proof.
  induction s as [|c s IH]; [done|]. simpl.
  destruct (decide (c = sep)) as [->|Hne].
  - destruct (split_char sep s) as [|w ws] eqn:Hsplit.
    + by destruct s; simpl in Hsplit; repeat case_decide; try destruct (split_char _ _).
    + rewrite join_cons_cons, IH. done.
  - destruct (split_char sep s) as [|w ws] eqn:Hsplit.
    + by destruct s; simpl in Hsplit; repeat case_decide; try destruct (split_char _ _).
    + destruct ws as [|w' ws'].
      * simpl in *. by rewrite IH.
      * rewrite join_cons_cons in *. rewrite append_cons. by rewrite IH.
Qed.

Lemma join_suffix sep pre suf :
  suf ≠ [] → ∃ lead, join sep (pre ++ suf) = lead +:+ join sep suf.
Proof.
  intros Hsuf. induction pre as [|a pre [lead IH]]; [by exists ""|].
  destruct (pre ++ suf) as [|b l] eqn:Hl.
  - by destruct pre, suf.
  - simpl app. rewrite Hl, join_cons_cons, IH.
    exists (a +:+ sep +:+ lead). by rewrite !append_assoc.
Qed.

Lemma trim_start_substring splits article :
  trim_start splits article = article ∨
  ∃ pre suf, splits = pre ++ suf ∧ suf ≠ [] ∧
             trim_start splits article = strip (join "." suf).
Proof.
  induction splits as [|segment rest IH]; [by left|]. simpl.
  destruct (Nat.leb (length (clean_words segment)) 2).
  - destruct IH as [->|(pre & suf & -> & Hsuf & ->)]; [by left|].
    right. by exists (segment :: pre), suf.
  - right. by exists [], (segment :: rest).
Qed.

(** X14. Cleaning only cuts text off the two ends of an article: the
    article of an accepted record occurs, as it is, as one contiguous
    piece of the article it was cleaned from, and is no longer than it. *)
Theorem clean_point_article_substring
    (nlp_sents : string → list string) (dp r : data_point) :
  clean_point nlp_sents dp = Some r →
  substring_of (article r) (article dp) ∧ (len (article r) ≤ len (article dp))%nat.
Proof.
  intros Hclean.
  assert (substring_of (article r) (article dp)) as Hsub;
    [|split; [done | by apply substring_len]].
  unfold clean_point in Hclean.
  destruct (highlight_loop _ _ _) as [cleaned_high n_highlight].
  destruct (Nat.leb 3 n_highlight && Nat.leb n_highlight 5); [|done].
  destruct (Nat.ltb _ 300); [done|]. injection Hclean as <-. simpl.
  assert (∀ marker a, substring_of (strip_prefix marker a) a) as Hprefix.
  { intros marker a. unfold strip_prefix.
    pose proof (split_once_spec marker a) as Hspec.
    destruct (split_once marker a) as [[before after]|]; [|apply substring_refl].
    destruct Hspec as [Hcut _]. destruct (Nat.leb _ _); [|apply substring_refl].
    rewrite Hcut, <- append_assoc. apply substring_suffix. }
  set (article1 := strip_prefix "--" (article dp)).
  set (article2 := strip_prefix "(CNN)" article1).
  eapply substring_trans; [|apply Hprefix]. fold article1.
  eapply substring_trans; [|apply Hprefix]. fold article2.
  destruct (trim_start_substring (split_char "." article2) article2)
    as [->|(pre & suf & Hsplit & Hsuf & ->)]; [apply substring_refl|].
  eapply substring_trans; [apply strip_substring|].
  destruct (join_suffix "." pre suf Hsuf) as [lead Hlead].
  rewrite <- Hsplit in Hlead.
  change "." with (String "." "") in Hlead at 1. rewrite join_split_char in Hlead.
  unfold article2, article1 in Hlead. rewrite Hlead. apply substring_suffix.
Qed.

Lemma clean_point_article_substring_witness :
  substring_of (article fox_cleaned) (article fox_point) ∧
  (len (article fox_cleaned) ≤ len (article fox_point))%nat.
Proof.
  apply (clean_point_article_substring bar_sents fox_point fox_cleaned).
  vm_compute. reflexivity.
Defined.

(** X15. Asking for more samples only extends the result: when
    [clean_dataset] returns for [m] samples it returns for every smaller
    [n], with the first [n] of the same records; and once it fails for
    [n] it fails, with [IndexError], for every larger number. *)
Theorem clean_dataset_monotone
    (nlp_sents : string → list string)
    (shuffle : nat → list data_point → list data_point)
    (dataset : list data_point) (seed n m : nat) :
  (n ≤ m)%nat →
  (∀ records,
     clean_dataset nlp_sents shuffle dataset m seed = Ok records →
     clean_dataset nlp_sents shuffle dataset n seed = Ok (take n records)) ∧
  (∀ e,
     clean_dataset nlp_sents shuffle dataset n seed = Err e →
     clean_dataset nlp_sents shuffle dataset m seed = Err IndexError).
Proof.
  intros Hnm. unfold clean_dataset.
  rewrite !clean_loop_spec by (simpl; lia). rewrite !app_nil_l.
  set (accepted := omap (clean_point nlp_sents) (shuffle seed dataset)).
  destruct (Nat.ltb_spec (length accepted) m) as [Hm|Hm];
    destruct (Nat.ltb_spec (length accepted) n) as [Hn|Hn]; try lia;
    (split; [intros records Hrec | intros e He]); try done.
  injection Hrec as <-. by rewrite take_take, Nat.min_l.
Qed.

Lemma clean_dataset_monotone_witness :
  clean_dataset bar_sents (λ _ d, d) [fox_point] 0 42 = Ok (take 0 [fox_cleaned]) ∧
  clean_dataset bar_sents (λ _ d, d) [fox_point] 3 42 = Err IndexError.
Proof.
  split.
  - apply (proj1 (clean_dataset_monotone bar_sents (λ _ d, d) [fox_point] 42 0 1
                    ltac:(lia)) [fox_cleaned]).
    vm_compute. reflexivity.
  - apply (proj2 (clean_dataset_monotone bar_sents (λ _ d, d) [fox_point] 42 2 3
                    ltac:(lia)) IndexError).
    vm_compute. reflexivity.
Defined.

(** ** Explorer: sentence texts and sections *)

Lemma lstrip_head s : starts_with_space (lstrip s) = false.
Proof.
  induction s as [|c s IH]; [done|]. simpl.
  destruct (isspace c) eqn:Hc; [done|]. simpl. done.
Qed.

Lemma lstrip_fixed s : starts_with_space s = false → lstrip s = s.
Proof. destruct s as [|c s]; [done|]. simpl. by intros ->. Qed.

Lemma rstrip_head s : starts_with_space s = false → starts_with_space (rstrip s) = false.
Proof.
  destruct s as [|c s]; [done|]. simpl. intros Hc.
  destruct (rstrip s); [by rewrite Hc | done].
Qed.

Lemma rstrip_idempotent s : rstrip (rstrip s) = rstrip s.
Proof.
  induction s as [|c s IH]; [done|]. simpl.
  destruct (rstrip s) as [|c' r] eqn:Hr.
  - destruct (isspace c) eqn:Hc; [done|]. simpl. by rewrite Hc.
  - cbn [rstrip]. cbn [rstrip] in IH. by rewrite IH.
Qed.

Lemma strip_idempotent s : strip (strip s) = strip s.
Proof.
  unfold strip.
  rewrite (lstrip_fixed (rstrip (lstrip s))) by apply rstrip_head, lstrip_head.
  apply rstrip_idempotent.
Qed.

(** X16. [split_sentence_article] returns one text per sentence of the
    splitter, in order; no text holds a newline, and none starts or ends
    with white space (stripping it again changes nothing). *)
Theorem split_sentence_article_clean
    (nlp_sents : string → list string) (text : string) :
  length (split_sentence_article nlp_sents text) = length (nlp_sents text) ∧
  Forall (λ sentence, has_newline sentence = false ∧ strip sentence = sentence)
    (split_sentence_article nlp_sents text).
Proof.
  unfold split_sentence_article. split; [by rewrite length_map|].
  apply Forall_map, Forall_forall. intros t _. split.
  - apply has_newline_clean.
  - apply strip_idempotent.
Qed.

Lemma ceil_third (n : Z) : ceil (inject_Z n / 3) = ((n + 2) / 3)%Z.
Proof.
  unfold ceil, Qceiling, Qfloor, Qdiv, Qmult, Qopp, Qinv, inject_Z. simpl.
  change (Z.pos (1 * 3)) with 3%Z.
  Z.to_euclidean_division_equations. lia.
Qed.

Lemma ceil_half (c n : Z) :
  ceil (inject_Z c + inject_Z (n - c) / 2) = ((c + n + 1) / 2)%Z.
Proof.
  unfold ceil, Qceiling, Qfloor, Qdiv, Qmult, Qopp, Qinv, Qplus, inject_Z. simpl.
  change (Z.pos (1 * (1 * 2))) with 2%Z. change (Z.pos (1 * 2)) with 2%Z.
  Z.to_euclidean_division_equations. lia.
Qed.

(** X17. [create_sections] cuts a list into three consecutive sections
    that together are the list again, and whose sizes differ by at most
    one, a longer section never coming after a shorter one. *)
Theorem create_sections_partition {A} (sentences : list A) :
  ∃ section1 section2 section3,
    create_sections sentences = [section1; section2; section3] ∧
    section1 ++ section2 ++ section3 = sentences ∧
    (length section3 ≤ length section2)%nat ∧
    (length section2 ≤ length section1)%nat ∧
    (length section1 ≤ length section3 + 1)%nat.
Proof.
  unfold create_sections. rewrite ceil_third, ceil_half.
  set (n := length sentences).
  set (cut1 := Z.to_nat ((Z.of_nat n + 2) / 3)).
  set (cut2 := Z.to_nat (((Z.of_nat n + 2) / 3 + Z.of_nat n + 1) / 2)).
  assert (cut1 ≤ cut2 ∧ cut2 ≤ n ∧
          n - cut2 ≤ cut2 - cut1 ∧ cut2 - cut1 ≤ cut1 ∧ cut1 ≤ n - cut2 + 1)%nat
    as (H12 & H2n & Hc & Hb & Ha).
  { unfold cut1, cut2. Z.to_euclidean_division_equations. lia. }
  eexists _, _, _. split; [reflexivity|].
  unfold slice, slice_from. fold cut1. fold cut2. change (Z.to_nat 0) with 0.
  rewrite drop_0. split.
  - replace (take cut1 sentences) with (take cut1 (take cut2 sentences))
      by (by rewrite take_take, Nat.min_l).
    by rewrite app_assoc, !take_drop.
  - rewrite !length_drop, !length_take. fold n. lia.
Qed.

(** ** Similar strings and the reciprocal rank *)

Lemma contains_spec x s : contains x s = true ↔ substring_of x s.
Proof.
  unfold contains, substring_of. pose proof (split_once_spec x s) as Hspec.
  destruct (split_once x s) as [[before after]|].
  - destruct Hspec as [Hcut _]. split; [eauto | done].
  - split; [done|]. intros (b & a & Hs). by destruct (Hspec b a).
Qed.

(** X18. Two strings are similar whenever one occurs inside the other,
    whatever the matcher's ratio: so every string is similar to itself,
    and the empty string is similar to every string. When neither occurs
    inside the other, they are similar exactly when the ratio is at least
    0.8. *)
Theorem is_similar_string_cases (ratio : string → string → Q) (string1 string2 : string) :
  (substring_of string1 string2 ∨ substring_of string2 string1 →
   is_similar_string ratio string1 string2 = true) ∧
  (¬ substring_of string1 string2 → ¬ substring_of string2 string1 →
   is_similar_string ratio string1 string2 = Qle_bool (8 # 10) (ratio string1 string2)) ∧
  is_similar_string ratio string1 string1 = true ∧
  is_similar_string ratio "" string2 = true ∧
  is_similar_string ratio string1 "" = true.
Proof.
  assert (∀ a b, substring_of a b ∨ substring_of b a →
                 is_similar_string ratio a b = true) as Hsub.
  { intros a b Hab. unfold is_similar_string.
    destruct (contains a b) eqn:Ha; [done|]. destruct (contains b a) eqn:Hb; [done|].
    destruct Hab as [Hab|Hab]; apply contains_spec in Hab; congruence. }
  split; [apply Hsub|]. split.
  - intros H12 H21. unfold is_similar_string.
    destruct (contains string1 string2) eqn:Ha; [by apply contains_spec in Ha|].
    destruct (contains string2 string1) eqn:Hb; [by apply contains_spec in Hb|].
    simpl. by destruct (Qle_bool _ _).
  - split; [apply Hsub; left; apply substring_refl|].
    split; apply Hsub; [left; by exists "", string2 | right; by exists "", string1].
Qed.

Lemma is_similar_string_cases_witness :
  is_similar_string (λ _ _, 0%Q) "the cat sat" "the cat sat on the mat" = true.
Proof.
  apply (proj1 (is_similar_string_cases (λ _ _, 0%Q) "the cat sat" "the cat sat on the mat")).
  left. by exists "", " on the mat".
Defined.

Section ReciprocalRank.
Variable ratio : string → string → Q.

Lemma first_rank_spec sents_pred gt_highlight start :
  match first_rank ratio sents_pred gt_highlight start with
  | Some rank =>
      ∃ p item, rank = (start + p)%nat ∧ sents_pred !! p = Some item ∧
                is_similar_string ratio item gt_highlight = true ∧
                ∀ q it, (q < p)%nat → sents_pred !! q = Some it →
                        is_similar_string ratio it gt_highlight = false
  | None => ∀ it, it ∈ sents_pred → is_similar_string ratio it gt_highlight = false
  end.
Proof.
  revert start. induction sents_pred as [|item rest IH]; intros start; simpl.
  - intros it Hit. by apply elem_of_nil in Hit.
  - destruct (is_similar_string ratio item gt_highlight) eqn:Hsim.
    + exists 0, item. repeat split; [lia | done |]. intros q it Hq. lia.
    + specialize (IH (S start)).
      destruct (first_rank ratio rest gt_highlight (S start)) as [rank|].
      * destruct IH as (p & it0 & -> & Hp & Hsim0 & Hbefore).
        exists (S p), it0. repeat split; [lia | done | done |].
        intros [|q] it Hq; simpl; [by intros [= <-]|]. apply Hbefore. lia.
      * intros it [->|Hit]%elem_of_cons; [done | by apply IH].
Qed.

Lemma reciprocal_le (a b : nat) :
  (1 ≤ a)%nat → (a ≤ b)%nat →
  (1 / inject_Z (Z.of_nat b) <= 1 / inject_Z (Z.of_nat a))%Q.
Proof.
  intros Ha Hab.
  pose proof (inject_nat_pos a ltac:(lia)) as Hpa.
  pose proof (inject_nat_pos b ltac:(lia)) as Hpb.
  apply Qle_shift_div_r; [done|].
  assert (1 / inject_Z (Z.of_nat a) * inject_Z (Z.of_nat b)
          == inject_Z (Z.of_nat b) / inject_Z (Z.of_nat a))%Q as ->
    by (field; lra).
  apply Qle_shift_div_l; [done|]. rewrite Qmult_1_l, <- Zle_Qle. lia.
Qed.

Lemma reciprocal_ranks_elem sents_pred sents_gt x :
  x ∈ reciprocal_ranks ratio sents_pred sents_gt ↔
  ∃ gt rank, gt ∈ sents_gt ∧ first_rank ratio sents_pred gt 1 = Some rank ∧
             x = (1 / inject_Z (Z.of_nat rank))%Q.
Proof.
  unfold reciprocal_ranks. rewrite list_elem_of_omap. split.
  - intros (gt & Hgt & Hx). destruct (first_rank ratio sents_pred gt 1) as [rank|] eqn:Hr;
      [|done]. injection Hx as <-. eauto.
  - intros (gt & rank & Hgt & Hr & ->). exists gt. by rewrite Hr.
Qed.
End ReciprocalRank.

(** X19. [compute_mrr_single_doc] answers the reciprocal of the best
    rank: 0 when no predicted sentence is similar to any reference
    highlight, and otherwise [1 / r] for the rank [r] (counted from 1) of
    the first predicted sentence that is similar to some reference
    highlight. *)
Theorem compute_mrr_single_doc_best_rank
    (ratio : string → string → Q) (sents_pred sents_gt : list string) :
  ((∀ item gt, item ∈ sents_pred → gt ∈ sents_gt →
               is_similar_string ratio item gt = false) →
   compute_mrr_single_doc ratio sents_pred sents_gt = 0%Q) ∧
  (∀ p item gt,
     sents_pred !! p = Some item → gt ∈ sents_gt →
     is_similar_string ratio item gt = true →
     (∀ q it g, (q < p)%nat → sents_pred !! q = Some it → g ∈ sents_gt →
                is_similar_string ratio it g = false) →
     (compute_mrr_single_doc ratio sents_pred sents_gt
        == 1 / inject_Z (Z.of_nat (S p)))%Q).
Proof.
  unfold compute_mrr_single_doc. split.
  - intros Hnone.
    destruct (reciprocal_ranks ratio sents_pred sents_gt) as [|x l] eqn:Hrr; [done|].
    assert (x ∈ reciprocal_ranks ratio sents_pred sents_gt) as Hx by (rewrite Hrr; by left).
    apply reciprocal_ranks_elem in Hx as (gt & rank & Hgt & Hr & _).
    pose proof (first_rank_spec ratio sents_pred gt 1) as Hspec. rewrite Hr in Hspec.
    destruct Hspec as (p & item & _ & Hp & Hsim & _).
    apply list_elem_of_lookup_2 in Hp. rewrite (Hnone item gt Hp Hgt) in Hsim. done.
  - intros p item gt Hp Hgt Hsim Hfirst.
    assert ((1 / inject_Z (Z.of_nat (S p)))%Q ∈ reciprocal_ranks ratio sents_pred sents_gt)
      as Hbest.
    { apply reciprocal_ranks_elem. exists gt, (S p). split; [done|]. split; [|done].
      pose proof (first_rank_spec ratio sents_pred gt 1) as Hspec.
      destruct (first_rank ratio sents_pred gt 1) as [rank|].
      - destruct Hspec as (p' & item' & -> & Hp' & Hsim' & Hbefore). f_equal.
        destruct (Nat.lt_trichotomy p' p) as [Hlt|[->|Hgt']]; [|done|].
        + by rewrite (Hfirst p' item' gt Hlt Hp' Hgt) in Hsim'.
        + by rewrite (Hbefore p item Hgt' Hp) in Hsim.
      - apply list_elem_of_lookup_2 in Hp. by rewrite (Hspec item Hp) in Hsim. }
    destruct (reciprocal_ranks ratio sents_pred sents_gt) as [|x l] eqn:Hrr;
      [by apply elem_of_nil in Hbest|].
    destruct (max_from_spec x l) as [Hin Hmax].
    apply Qle_antisym; [|by apply Hmax].
    rewrite <- Hrr in Hin. apply reciprocal_ranks_elem in Hin as (g & rank & Hg & Hr & ->).
    pose proof (first_rank_spec ratio sents_pred g 1) as Hspec. rewrite Hr in Hspec.
    destruct Hspec as (p' & item' & -> & Hp' & Hsim' & _).
    apply reciprocal_le; [lia|].
    destruct (Nat.le_gt_cases p p') as [Hle|Hlt]; [lia|].
    by rewrite (Hfirst p' item' g Hlt Hp' Hg) in Hsim'.
Qed.

Lemma compute_mrr_single_doc_best_rank_witness :
  (compute_mrr_single_doc (λ _ _, 0%Q) ["zzz"; "the cat"] ["a dog"; "the cat sat"]
     == 1 / inject_Z (Z.of_nat 2))%Q.
Proof.
  apply (proj2 (compute_mrr_single_doc_best_rank (λ _ _, 0%Q)
                  ["zzz"; "the cat"] ["a dog"; "the cat sat"]) 1 "the cat" "the cat sat").
  - reflexivity.
  - apply list_elem_of_further, list_elem_of_here.
  - reflexivity.
  - intros q it g Hq Hit Hg. destruct q as [|q]; [|lia]. injection Hit as <-.
    repeat (apply elem_of_cons in Hg as [->|Hg]; [reflexivity|]).
    by apply elem_of_nil in Hg.
Defined.
